(** * A bounded, mutex-protected queue and the thread pool built on it

    Shallow embedding of [mutex_queue.h] (class [MutexQueue<T, kMaxSize>])
    and [thread_pool.h] (class [ThreadPool]).

    Every public member function of [MutexQueue] takes [mutex_] on entry and
    keeps it until it returns, so a call is one critical section.  A call is
    embedded as a function from the object's state to an [outcome]: it
    returns (with the new state and the notifications it sent), or it is
    suspended in [std::condition_variable::wait] because its predicate is
    false, or it has undefined behaviour.  A suspended call has not touched
    the object; it is resumed by evaluating the call again in a later
    state, which is what [wait(lock, pred)] does when it re-checks [pred].

    The [size_t] values of the code ([kMaxSize], [queue_.size()]) count
    elements and are natural numbers here. *)

From Stdlib Require Import List Arith Bool Lia.
From stdpp Require Import list.
Import ListNotations.

Set Implicit Arguments.

(** ** The standard-library pieces the classes are built from *)

Module std.

(** [std::queue<T>]: elements enter at the back and leave at the front.
    [front] and [pop] on an empty queue are undefined: [None]. *)
Section queue.
Context {T : Type}.

Definition size (q : list T) : nat := length q.

Definition empty (q : list T) : bool :=
  match q with [] => true | _ :: _ => false end.

Definition emplace (x : T) (q : list T) : list T := q ++ [x].

Definition front (q : list T) : option T :=
  match q with [] => None | x :: _ => Some x end.

Definition pop (q : list T) : option (list T) :=
  match q with [] => None | _ :: q' => Some q' end.
End queue.

(** [T *]: either null or the address of an object, carried here with the
    object's current value. *)
Inductive pointer (T : Type) : Type :=
| nullptr
| address_of (pointee : T).
Arguments nullptr {T}.

(** [if (p)] *)
Definition to_bool_ptr {T} (p : pointer T) : bool :=
  match p with nullptr => false | address_of _ => true end.

(** [*p = x]; undefined through a null pointer. *)
Definition assign {T} (p : pointer T) (x : T) : option (pointer T) :=
  match p with nullptr => None | address_of _ => Some (address_of x) end.

(** Conversion of a [size_t] to [bool]. *)
Definition to_bool (n : nat) : bool := negb (n =? 0).

End std.

(** ** MutexQueue *)

Module MutexQueue.

(** The two [std::condition_variable] members. *)
Inductive condition_variable : Set :=
| not_empty_notifier_
| not_full_notifier_.

(** The data members guarded by [mutex_]. *)
Record t (T : Type) : Type := Build {
  queue_ : list T;
  alert_for_exit_ : bool
}.
Arguments Build {T}.

(** How a call on an object of type [S] ends: it returns [r], leaving the
    object in state [s] after the listed [notify_all] calls; or the caller
    is suspended on [cv], the object untouched; or the behaviour is
    undefined. *)
Inductive outcome (S R : Type) : Type :=
| Return (r : R) (s : S) (notified : list condition_variable)
| Suspend (cv : condition_variable)
| Undefined.
Arguments Return {S R}.
Arguments Suspend {S R}.
Arguments Undefined {S R}.

Section members.
Context {T : Type}.
Variable kMaxSize : nat.

Definition with_queue (s : t T) (q : list T) : t T :=
  Build q (alert_for_exit_ s).

(** [cv.wait(lock, pred)] followed by the rest of the function. *)
Definition wait {R} (cv : condition_variable) (pred : t T -> bool)
    (rest : t T -> outcome (t T) R) (s : t T) : outcome (t T) R :=
  if pred s then rest s else Suspend cv.

Definition is_full (s : t T) : bool := kMaxSize <=? std.size (queue_ s).

Definition is_empty (s : t T) : bool := std.empty (queue_ s).

Definition size (s : t T) : outcome (t T) nat :=
  Return (std.size (queue_ s)) s [].

Definition empty (s : t T) : outcome (t T) nat :=
  Return (std.size (queue_ s)) s [].

Definition emplace_wait_if_full (x : T) : t T -> outcome (t T) bool :=
  wait not_full_notifier_
    (fun s => negb (is_full s) || alert_for_exit_ s)
    (fun s =>
       if negb (is_full s)
       then Return true (with_queue s (std.emplace x (queue_ s)))
              [not_empty_notifier_]
       else Return false s []).

(** [while (is_full()) queue_.pop();] by recursion on the queue: every
    iteration removes one element. *)
Fixpoint pop_while_full (q : list T) : option (list T) :=
  if kMaxSize <=? std.size q
  then match q with
       | [] => None
       | _ :: q' => pop_while_full q'
       end
  else Some q.

Definition emplace_overwrite_oldest (x : T) (s : t T) : outcome (t T) unit :=
  match pop_while_full (queue_ s) with
  | None => Undefined
  | Some q => Return tt (with_queue s (std.emplace x q))
                [not_empty_notifier_]
  end.

(** [if (value) { *value = queue_.front(); } queue_.pop();] and the
    notification and [return true] that follow in both pop functions. *)
Definition take_front (value : std.pointer T) (s : t T)
    : outcome (t T) (bool * std.pointer T) :=
  let stored :=
    if std.to_bool_ptr value
    then match std.front (queue_ s) with
         | None => None
         | Some x => std.assign value x
         end
    else Some value in
  match stored, std.pop (queue_ s) with
  | Some value', Some q' =>
      Return (true, value') (with_queue s q') [not_full_notifier_]
  | _, _ => Undefined
  end.

Definition pop_if_not_empty (value : std.pointer T) (s : t T)
    : outcome (t T) (bool * std.pointer T) :=
  if is_empty s then Return (false, value) s []
  else take_front value s.

Definition pop_wait_if_empty (value : std.pointer T)
    : t T -> outcome (t T) (bool * std.pointer T) :=
  wait not_empty_notifier_
    (fun s => negb (is_empty s) || alert_for_exit_ s)
    (fun s =>
       if negb (is_empty s) then take_front value s
       else Return (false, value) s []).

Definition is_alert (s : t T) : outcome (t T) bool :=
  Return (alert_for_exit_ s) s [].

Definition alert_for_exit (s : t T) : outcome (t T) unit :=
  Return tt (Build (queue_ s) true) [not_empty_notifier_].

(** A freshly constructed queue. *)
Definition init : t T := Build [] false.

(** What a successful pop leaves behind its destination pointer. *)
Definition delivered (value : std.pointer T) (x : T) : std.pointer T :=
  match value with
  | std.nullptr => std.nullptr
  | std.address_of _ => std.address_of x
  end.

(** The [n] most recent items of a history of pushes. *)
Definition latest (n : nat) (l : list T) : list T :=
  skipn (length l - n) l.

(** *** Sequences of calls

    The calls that threads make on one queue, in the order in which
    they hold [mutex_]. *)
Inductive call : Type :=
| Size
| Empty
| EmplaceWaitIfFull (x : T)
| EmplaceOverwriteOldest (x : T)
| PopIfNotEmpty (value : std.pointer T)
| PopWaitIfEmpty (value : std.pointer T)
| IsAlert
| AlertForExit.

Inductive result : Type :=
| ret_size (n : nat)
| ret_bool (b : bool)
| ret_pop (b : bool) (value : std.pointer T)
| ret_void.

Definition answer {R} (f : R -> result) (o : outcome (t T) R)
    : outcome (t T) result :=
  match o with
  | Return r s n => Return (f r) s n
  | Suspend cv => Suspend cv
  | Undefined => Undefined
  end.

Definition exec (c : call) (s : t T) : outcome (t T) result :=
  match c with
  | Size => answer ret_size (size s)
  | Empty => answer ret_size (empty s)
  | EmplaceWaitIfFull x => answer ret_bool (emplace_wait_if_full x s)
  | EmplaceOverwriteOldest x =>
      answer (fun _ => ret_void) (emplace_overwrite_oldest x s)
  | PopIfNotEmpty value =>
      answer (fun r => ret_pop (fst r) (snd r)) (pop_if_not_empty value s)
  | PopWaitIfEmpty value =>
      answer (fun r => ret_pop (fst r) (snd r)) (pop_wait_if_empty value s)
  | IsAlert => answer ret_bool (is_alert s)
  | AlertForExit => answer (fun _ => ret_void) (alert_for_exit s)
  end.

(** Runs the calls in order.  The log has one entry per call: what it
    returned, or [None] when its caller was suspended (the object is
    then unchanged, and the caller may appear again later in the
    sequence, which is its wake-up).  [None] for the whole run means
    undefined behaviour. *)
Fixpoint run (calls : list call) (s : t T)
    : option (t T * list (option result)) :=
  match calls with
  | [] => Some (s, [])
  | c :: calls' =>
      match exec c s with
      | Return r s' _ =>
          match run calls' s' with
          | Some (s'', log) => Some (s'', Some r :: log)
          | None => None
          end
      | Suspend _ =>
          match run calls' s with
          | Some (s'', log) => Some (s'', None :: log)
          | None => None
          end
      | Undefined => None
      end
  end.

(** The items that blocking pushes have put in, in order. *)
Fixpoint pushed (calls : list call) (log : list (option result))
    : list T :=
  match calls, log with
  | EmplaceWaitIfFull x :: calls', Some (ret_bool true) :: log' =>
      x :: pushed calls' log'
  | _ :: calls', _ :: log' => pushed calls' log'
  | _, _ => []
  end.

(** The items that successful pops have handed to their callers, in
    order. *)
Fixpoint popped (log : list (option result)) : list T :=
  match log with
  | Some (ret_pop true (std.address_of x)) :: log' => x :: popped log'
  | _ :: log' => popped log'
  | [] => []
  end.

(** The number of pops that reported success. *)
Fixpoint successful_pops (log : list (option result)) : nat :=
  match log with
  | Some (ret_pop true _) :: log' => S (successful_pops log')
  | _ :: log' => successful_pops log'
  | [] => 0
  end.

Definition is_overwrite (c : call) : bool :=
  match c with EmplaceOverwriteOldest _ => true | _ => false end.

Definition is_push (c : call) : bool :=
  match c with
  | EmplaceWaitIfFull _ | EmplaceOverwriteOldest _ => true
  | _ => false
  end.

Definition is_cancel (c : call) : bool :=
  match c with AlertForExit => true | _ => false end.

Definition is_pop (c : call) : bool :=
  match c with
  | PopIfNotEmpty _ | PopWaitIfEmpty _ => true
  | _ => false
  end.

Definition null_destination (c : call) : bool :=
  match c with
  | PopIfNotEmpty value | PopWaitIfEmpty value =>
      negb (std.to_bool_ptr value)
  | _ => false
  end.

(** *** Threads and the two condition variables

    A condition variable is the list of threads suspended on it.
    [notify_all] empties the list; a thread whose call suspends joins
    the list of the variable it waits on, and makes no step while it is
    on a list.  (A spurious wake-up is allowed by the C++ standard but
    never promised, so it is not a step here.) *)
Record monitor : Type := Monitor {
  object : t T;
  waiting_not_empty : list nat;
  waiting_not_full : list nat
}.

Definition notify_all (cv : condition_variable) (m : monitor) : monitor :=
  match cv with
  | not_empty_notifier_ => Monitor (object m) [] (waiting_not_full m)
  | not_full_notifier_ => Monitor (object m) (waiting_not_empty m) []
  end.

Definition suspend (cv : condition_variable) (thread : nat) (m : monitor)
    : monitor :=
  match cv with
  | not_empty_notifier_ =>
      Monitor (object m) (waiting_not_empty m ++ [thread])
        (waiting_not_full m)
  | not_full_notifier_ =>
      Monitor (object m) (waiting_not_empty m)
        (waiting_not_full m ++ [thread])
  end.

Definition suspended (thread : nat) (m : monitor) : bool :=
  existsb (Nat.eqb thread) (waiting_not_empty m ++ waiting_not_full m).

(** Whoever waits on a condition variable waits for a reason: the
    predicate of its [wait] is false. *)
Definition consumers_wait_rightly (m : monitor) : Prop :=
  waiting_not_empty m = [] \/
  queue_ (object m) = [] /\ alert_for_exit_ (object m) = false.

Definition producers_wait_rightly (m : monitor) : Prop :=
  waiting_not_full m = [] \/
  is_full (object m) = true /\ alert_for_exit_ (object m) = false.

(** One call by one thread.  [None]: the thread is suspended and cannot
    make the call, or the call is undefined. *)
Definition step (thread : nat) (c : call) (m : monitor)
    : option (monitor * option result) :=
  if suspended thread m then None
  else match exec c (object m) with
       | Return r s notified =>
           Some (fold_right notify_all
                   (Monitor s (waiting_not_empty m) (waiting_not_full m))
                   notified,
                 Some r)
       | Suspend cv => Some (suspend cv thread m, None)
       | Undefined => None
       end.

Fixpoint steps (schedule : list (nat * call)) (m : monitor)
    : option monitor :=
  match schedule with
  | [] => Some m
  | (thread, c) :: schedule' =>
      match step thread c m with
      | Some (m', _) => steps schedule' m'
      | None => None
      end
  end.

End members.

Arguments call : clear implicits.
Arguments result : clear implicits.
Arguments monitor : clear implicits.

End MutexQueue.

(** ** ThreadPool *)

Module ThreadPool.
Import MutexQueue.

Section pool.
(** [val]: the values task bodies return; [exn]: what they throw. *)
Variables val exn : Type.

(** *** [std::packaged_task] and [std::future] *)

Inductive future_errc : Set :=
| broken_promise
| future_already_retrieved
| promise_already_satisfied
| no_state.

Inductive exception : Type :=
| thrown (e : exn)
| future_error (c : future_errc).

(** How an invocation ends. *)
Inductive completion (A : Type) : Type :=
| returned (a : A)
| raised (e : exception).
Arguments returned {A}.
Arguments raised {A}.

(** The shared state of a task and its future is an
    [option (completion val)]: [None] until a result is stored.  The
    shared states live in a heap, a list; a future or a task holds the
    index of its state. *)

(** [std::packaged_task<ReturnType()>] made from
    [std::bind(fn, args...)]. *)
Record packaged_task : Type := {
  callable : unit -> completion val;
  state : nat
}.

(** [operator()]: runs the callable and stores what it returns or
    throws in the shared state. *)
Definition invoke (task : packaged_task) (heap : list (option (completion val)))
    : completion unit * list (option (completion val)) :=
  match heap !! state task with
  | None => (raised (future_error no_state), heap)
  | Some (Some _) => (raised (future_error promise_already_satisfied), heap)
  | Some None =>
      (returned tt, <[state task := Some (callable task tt)]> heap)
  end.

(** The destructor abandons the shared state: if no result was stored,
    the future gets [broken_promise]. *)
Definition abandon (task : packaged_task) (heap : list (option (completion val)))
    : list (option (completion val)) :=
  match heap !! state task with
  | Some None =>
      <[state task := Some (raised (future_error broken_promise))]> heap
  | _ => heap
  end.

(** [future.get()]: [None] when the future has no shared state. *)
Inductive get_result : Type :=
| get_waits
| get_returns (v : val)
| get_throws (e : exception).

Definition get (future : nat) (heap : list (option (completion val)))
    : option get_result :=
  match heap !! future with
  | None => None
  | Some None => Some get_waits
  | Some (Some (returned v)) => Some (get_returns v)
  | Some (Some (raised e)) => Some (get_throws e)
  end.

(** [std::packaged_task<void()>], the element type of [task_queue_]:
    default-constructed, or made from the closure of [enqueue], which
    owns [task_ptr] and calls the task it points to. *)
Inductive packaged_task_void : Type :=
| no_task
| closure (task_ptr : packaged_task).

(** [operator()] of the element.  Whatever the closure returns or
    throws is stored in the element's own shared state, of which
    nobody holds a future; the call itself throws only when there is
    no task to run. *)
Definition invoke_void (task : packaged_task_void)
    (heap : list (option (completion val))) : completion unit * list (option (completion val)) :=
  match task with
  | no_task => (raised (future_error no_state), heap)
  | closure task_ptr =>
      let '(_, heap') := invoke task_ptr heap in (returned tt, heap')
  end.

(** *** The pool *)

(** A worker thread: inside the loop of [thread_task], returned from
    it, or ended by an exception that left [thread_task]. *)
Inductive thread : Set :=
| looping
| finished
| terminated.

Record t : Type := Build {
  thread_pool_ : list thread;
  task_queue_ : MutexQueue.t packaged_task_void;
  max_thread_number_ : nat;
  heap_ : list (option (completion val))
}.

(** [MutexQueue<std::packaged_task<void()>, 128> task_queue_] *)
Definition kMaxSize : nat := 128.

(** The constructor: [max_thread_number] threads, each running
    [thread_task]. *)
Definition ThreadPool (max_thread_number : nat) : t :=
  Build (replicate max_thread_number looping) MutexQueue.init
    max_thread_number [].

(** One iteration of [while (true)] in [thread_task], on the thread at
    index [i] of [thread_pool_]. *)
Definition thread_task (i : nat) (p : t) : outcome t unit :=
  match thread_pool_ p !! i with
  | Some looping =>
      match pop_wait_if_empty (std.address_of no_task) (task_queue_ p) with
      | Return (true, std.address_of task) q notified =>
          let '(c, heap) := invoke_void task (heap_ p) in
          let status :=
            match c with returned _ => looping | raised _ => terminated end in
          Return tt
            (Build (<[i := status]> (thread_pool_ p)) q
               (max_thread_number_ p) heap)
            notified
      | Return (true, std.nullptr) _ _ => Undefined
      | Return (false, _) q notified =>
          Return tt
            (Build (<[i := finished]> (thread_pool_ p)) q
               (max_thread_number_ p) (heap_ p))
            notified
      | Suspend cv => Suspend cv
      | Undefined => Undefined
      end
  | _ => Return tt p []
  end.

(** [enqueue(fn, args...)], with [fn] already bound to its arguments.
    Returns the future.  The value [emplace_wait_if_full] returns is
    not looked at; when it is [false] the closure was not moved into
    the queue and is destroyed with the task it owns. *)
Definition enqueue (fn : unit -> completion val) (p : t)
    : outcome t nat :=
  let task_ptr := {| callable := fn; state := length (heap_ p) |} in
  let heap := heap_ p ++ [None] in
  let future := state task_ptr in
  match emplace_wait_if_full kMaxSize (closure task_ptr) (task_queue_ p)
  with
  | Return true q notified =>
      Return future
        (Build (thread_pool_ p) q (max_thread_number_ p) heap) notified
  | Return false q notified =>
      Return future
        (Build (thread_pool_ p) q (max_thread_number_ p)
           (abandon task_ptr heap))
        notified
  | Suspend cv => Suspend cv
  | Undefined => Undefined
  end.

(** The first statement of the destructor:
    [task_queue_.alert_for_exit()].  The worker threads go on running
    after it; the joins and the destruction of the members are [finish],
    below. *)
Definition destroy (p : t) : outcome t unit :=
  match alert_for_exit (task_queue_ p) with
  | Return _ q notified =>
      Return tt
        (Build (thread_pool_ p) q (max_thread_number_ p) (heap_ p))
        notified
  | Suspend cv => Suspend cv
  | Undefined => Undefined
  end.

(** [t.join()] returns for every thread. *)
Definition joined (p : t) : bool :=
  forallb (fun th => match th with looping => false | _ => true end)
    (thread_pool_ p).

(** The destruction of a queue element that was never run: the closure
    dies with the task it owns. *)
Definition abandon_void (task : packaged_task_void)
    (heap : list (option (completion val))) : list (option (completion val)) :=
  match task with
  | no_task => heap
  | closure task_ptr => abandon task_ptr heap
  end.

(** The rest of the destructor, after [alert_for_exit]: the joins, which
    return once every thread has left [thread_task], and then the
    destruction of the members, where [task_queue_] takes the tasks
    still queued with it, front to back.  What outlives the pool is the
    heap of shared states, which the futures keep alive.  [None]: the
    alert has not been raised, or a join is still waiting. *)
Definition finish (p : t) : option (list (option (completion val))) :=
  if alert_for_exit_ (task_queue_ p) && joined p
  then Some (fold_left (fun heap task => abandon_void task heap)
               (queue_ (task_queue_ p)) (heap_ p))
  else None.

(** *** Histories of a pool *)
Inductive event : Type :=
| Enqueue (fn : unit -> completion val)
| Iterate (i : nat)
| Destroy.

Definition discard {R} (o : outcome t R) : outcome t unit :=
  match o with
  | Return _ p notified => Return tt p notified
  | Suspend cv => Suspend cv
  | Undefined => Undefined
  end.

Definition handle (e : event) (p : t) : outcome t unit :=
  match e with
  | Enqueue fn => discard (enqueue fn p)
  | Iterate i => thread_task i p
  | Destroy => destroy p
  end.

(** A suspended caller leaves the pool as it is; [None] is undefined
    behaviour. *)
Fixpoint history (events : list event) (p : t) : option t :=
  match events with
  | [] => Some p
  | e :: events' =>
      match handle e p with
      | Return _ p' _ => history events' p'
      | Suspend _ => history events' p
      | Undefined => None
      end
  end.

(** *** The invariant of a pool *)

(** A queued element is a closure whose task has not stored a result
    yet. *)
Definition pending (heap : list (option (completion val))) (task : packaged_task_void)
    : Prop :=
  match task with
  | no_task => False
  | closure task_ptr => heap !! state task_ptr = Some None
  end.

Definition state_of (task : packaged_task_void) : option nat :=
  match task with
  | no_task => None
  | closure task_ptr => Some (state task_ptr)
  end.

Record wf (p : t) : Prop := {
  wf_pending : Forall (pending (heap_ p)) (queue_ (task_queue_ p));
  wf_distinct : NoDup (map state_of (queue_ (task_queue_ p)));
  wf_capacity : length (queue_ (task_queue_ p)) <= kMaxSize;
  wf_threads : Forall (fun th => th <> terminated) (thread_pool_ p);
  wf_looping :
    alert_for_exit_ (task_queue_ p) = false ->
    Forall (fun th => th = looping) (thread_pool_ p);
  wf_number : length (thread_pool_ p) = max_thread_number_ p
}.

(** The task that [enqueue] made from [fn], with its result going to
    [future], is either still queued, with every thread of the pool in
    its loop, or has run and stored what [fn] returned or threw. *)
Definition tracked (fn : unit -> completion val) (future : nat) (p : t)
    : Prop :=
  (exists pre post,
     queue_ (task_queue_ p)
     = pre ++ closure {| callable := fn; state := future |} :: post /\
     heap_ p !! future = Some None /\
     Forall (fun th => th = looping) (thread_pool_ p))
  \/ heap_ p !! future = Some (Some (fn tt)).

End pool.

Arguments returned {exn A}.
Arguments raised {exn A}.
Arguments thrown {exn}.
Arguments future_error {exn}.
Arguments get_waits {val exn}.
Arguments get_returns {val exn}.
Arguments get_throws {val exn}.
Arguments no_task {val exn}.
Arguments Iterate {val exn}.
Arguments Destroy {val exn}.

End ThreadPool.

(** * Properties of MutexQueue *)

Section MutexQueue_properties.
Import MutexQueue.

Context {T : Type}.
Variable kMaxSize : nat.

(** [static_assert(kMaxSize > 0, "max_size must be > 0")] *)
Hypothesis kMaxSize_positive : 0 < kMaxSize.

Implicit Types (s : t T) (q : list T) (x : T) (value : std.pointer T).
Implicit Types (calls : list (call T)) (log : list (option (result T))).

(** ** The single calls, case by case *)

Lemma is_full_true s : is_full kMaxSize s = true <-> kMaxSize <= length (queue_ s).
Proof. unfold is_full, std.size. apply Nat.leb_le. Qed.

Lemma is_full_false s : is_full kMaxSize s = false <-> length (queue_ s) < kMaxSize.
Proof. unfold is_full, std.size. apply Nat.leb_gt. Qed.

Lemma take_front_cons value x q a :
  take_front value (Build (x :: q) a)
  = Return (true, delivered value x) (Build q a) [not_full_notifier_].
Proof. destruct value; reflexivity. Qed.

Lemma pop_if_not_empty_cons value x q a :
  pop_if_not_empty value (Build (x :: q) a)
  = Return (true, delivered value x) (Build q a) [not_full_notifier_].
Proof. unfold pop_if_not_empty; simpl. apply take_front_cons. Qed.

Lemma pop_if_not_empty_nil value a :
  pop_if_not_empty value (Build [] a) = Return (false, value) (Build [] a) [].
Proof. reflexivity. Qed.

Lemma pop_wait_if_empty_cons value x q a :
  pop_wait_if_empty value (Build (x :: q) a)
  = Return (true, delivered value x) (Build q a) [not_full_notifier_].
Proof. unfold pop_wait_if_empty, wait; simpl. apply take_front_cons. Qed.

Lemma pop_wait_if_empty_nil value a :
  pop_wait_if_empty value (Build [] a)
  = if a then Return (false, value) (Build [] a) []
    else Suspend not_empty_notifier_.
Proof. destruct a; reflexivity. Qed.

Lemma emplace_wait_if_full_cases x s :
  emplace_wait_if_full kMaxSize x s
  = if is_full kMaxSize s
    then if alert_for_exit_ s then Return false s []
         else Suspend not_full_notifier_
    else Return true (with_queue s (queue_ s ++ [x])) [not_empty_notifier_].
Proof.
  unfold emplace_wait_if_full, wait, std.emplace.
  destruct (is_full kMaxSize s), (alert_for_exit_ s); reflexivity.
Qed.

(** The flag is only ever set. *)
Lemma exec_keeps_alert c s r s' notified :
  exec kMaxSize c s = Return r s' notified ->
  alert_for_exit_ s = true -> alert_for_exit_ s' = true.
Proof.
  destruct s as [q a]; simpl; intros E ->.
  destruct c; simpl in E.
  - inversion E; reflexivity.
  - inversion E; reflexivity.
  - rewrite emplace_wait_if_full_cases in E; simpl in E.
    destruct (is_full _ _); inversion E; reflexivity.
  - unfold emplace_overwrite_oldest in E; simpl in E.
    destruct (pop_while_full _ _); inversion E; reflexivity.
  - destruct q; [rewrite pop_if_not_empty_nil in E
                | rewrite pop_if_not_empty_cons in E];
      inversion E; reflexivity.
  - destruct q; [rewrite pop_wait_if_empty_nil in E
                | rewrite pop_wait_if_empty_cons in E];
      inversion E; reflexivity.
  - inversion E; reflexivity.
  - inversion E; reflexivity.
Qed.

Lemma run_keeps_alert calls : forall s s' log,
  run kMaxSize calls s = Some (s', log) ->
  alert_for_exit_ s = true -> alert_for_exit_ s' = true.
Proof.
  induction calls as [|c calls IH]; simpl; intros s s' log E A.
  - inversion E; subst; exact A.
  - destruct (exec kMaxSize c s) as [r s1 n| |] eqn:X; try discriminate.
    + destruct (run kMaxSize calls s1) as [[s2 l]|] eqn:R; inversion E; subst.
      eapply IH; eauto using exec_keeps_alert.
    + destruct (run kMaxSize calls s) as [[s2 l]|] eqn:R; inversion E; subst.
      eapply IH; eauto.
Qed.

(** ** Observers *)

(** C4: [empty()] returns what [size()] returns, the number of elements;
    as a [bool] it is true exactly when the queue holds an element. *)
Theorem empty_returns_size s :
  empty s = size s /\
  empty s = Return (length (queue_ s)) s [] /\
  (std.to_bool (length (queue_ s)) = true <-> queue_ s <> []).
Proof.
  repeat split; try reflexivity.
  - destruct (queue_ s); simpl; [discriminate | intros _ H; discriminate].
  - destruct (queue_ s); simpl; [intros H; now contradiction H | reflexivity].
Qed.

(** ** After [alert_for_exit] *)

(** C1, as the code has it: in every state reached after
    [alert_for_exit], [emplace_wait_if_full] never suspends; it returns
    [false] and leaves the queue alone exactly when the queue is full,
    and otherwise appends the item and returns [true]. *)
Theorem emplace_wait_if_full_after_alert s0 calls s log x :
  alert_for_exit_ s0 = true ->
  run kMaxSize calls s0 = Some (s, log) ->
  emplace_wait_if_full kMaxSize x s
  = if is_full kMaxSize s then Return false s []
    else Return true (with_queue s (queue_ s ++ [x])) [not_empty_notifier_].
Proof.
  intros A R. rewrite emplace_wait_if_full_cases.
  rewrite (run_keeps_alert _ _ R A). reflexivity.
Qed.

(** An empty, cancelled queue stays as it is under every call that is
    not a push; none of these calls suspends, and every pop returns
    [false]. *)
Lemma run_drained calls :
  existsb is_push calls = false ->
  exists log,
    run kMaxSize calls (Build [] true) = Some (Build [] true, log) /\
    Forall (fun r => r <> None) log /\
    Forall (fun r => forall b value, r = Some (ret_pop b value) -> b = false)
      log.
Proof.
  induction calls as [|c calls IH]; simpl; intros P.
  - exists []. auto.
  - apply orb_false_elim in P as [Pc P].
    destruct (IH P) as (log & R & S & F).
    destruct c; try discriminate Pc; simpl; rewrite R;
      eexists; (split; [reflexivity|]);
      (split; constructor; auto; try discriminate);
      intros b v [= <- _]; reflexivity.
Qed.

(** C3, as the code has it: in every state reached after
    [alert_for_exit], [pop_wait_if_empty] returns at once; it hands over and removes the
    front element when there is one, and returns [false] exactly when
    the queue is empty, leaving the queue as it was.  From then on every
    call that is not a push leaves the queue empty, and every pop among
    them returns [false]. *)
Theorem pop_wait_if_empty_after_alert s0 calls s log value :
  alert_for_exit_ s0 = true ->
  run kMaxSize calls s0 = Some (s, log) ->
  (forall x q, queue_ s = x :: q ->
     pop_wait_if_empty value s
     = Return (true, delivered value x) (with_queue s q)
         [not_full_notifier_]) /\
  (exists value' s' notified,
     pop_wait_if_empty value s
     = Return (negb (std.empty (queue_ s)), value') s' notified) /\
  (queue_ s = [] ->
     pop_wait_if_empty value s = Return (false, value) s [] /\
     forall calls',
       existsb is_push calls' = false ->
       exists log',
         run kMaxSize calls' s = Some (s, log') /\
         Forall (fun r => r <> None) log' /\
         Forall
           (fun r => forall b value', r = Some (ret_pop b value') -> b = false)
           log').
Proof.
  intros A R. pose proof (run_keeps_alert _ _ R A) as A'.
  destruct s as [q a]; simpl in A'; subst a; simpl.
  split; [|split].
  - intros x q' ->. apply pop_wait_if_empty_cons.
  - destruct q as [|x q'].
    + rewrite pop_wait_if_empty_nil; simpl; eauto.
    + rewrite pop_wait_if_empty_cons; simpl; eauto.
  - intros ->. split; [reflexivity|]. apply run_drained.
Qed.

(** ** Null destinations *)

(** C9: with a null [value] and a non-empty queue, both pops remove the
    front element, store nothing, and return [true]; with a null [value]
    neither pop is ever undefined. *)
Theorem pop_null_destination x q a :
  pop_if_not_empty std.nullptr (Build (x :: q) a)
  = Return (true, std.nullptr) (Build q a) [not_full_notifier_] /\
  pop_wait_if_empty std.nullptr (Build (x :: q) a)
  = Return (true, std.nullptr) (Build q a) [not_full_notifier_] /\
  (forall s, pop_if_not_empty std.nullptr s <> Undefined) /\
  (forall s, pop_wait_if_empty std.nullptr s <> Undefined).
Proof.
  split; [apply pop_if_not_empty_cons|].
  split; [apply pop_wait_if_empty_cons|].
  split; intros [[|y q'] [|]]; discriminate.
Qed.

(** ** The capacity bound *)

Lemma pop_while_full_drops q :
  pop_while_full kMaxSize q = Some (drop (length q + 1 - kMaxSize) q).
Proof.
  induction q as [|y q IH].
  - simpl. destruct kMaxSize; [lia | reflexivity].
  - cbn [pop_while_full]. unfold std.size.
    destruct (Nat.leb_spec kMaxSize (length (y :: q))) as [L|L];
      simpl in L.
    + rewrite IH. f_equal.
      replace (length (y :: q) + 1 - kMaxSize)
        with (S (length q + 1 - kMaxSize)) by (simpl; lia).
      reflexivity.
    + replace (length (y :: q) + 1 - kMaxSize) with 0 by (simpl; lia).
      reflexivity.
Qed.

Lemma emplace_overwrite_oldest_spec x s :
  emplace_overwrite_oldest kMaxSize x s
  = Return tt (with_queue s (latest kMaxSize (queue_ s ++ [x])))
      [not_empty_notifier_].
Proof.
  unfold emplace_overwrite_oldest, std.emplace, latest.
  rewrite pop_while_full_drops, length_app; simpl.
  rewrite drop_app_le by lia. reflexivity.
Qed.

Lemma length_latest n (l : list T) : length (latest n l) <= n.
Proof. unfold latest. rewrite length_drop. lia. Qed.

Lemma latest_short n (l : list T) : length l <= n -> latest n l = l.
Proof.
  intros L. unfold latest. replace (length l - n) with 0 by lia.
  reflexivity.
Qed.

Lemma latest_app n (l m : list T) :
  latest n (latest n l ++ m) = latest n (l ++ m).
Proof.
  unfold latest.
  rewrite !length_app, length_drop, !drop_app, drop_drop, length_drop.
  f_equal; f_equal; lia.
Qed.

(** A call made within the bound is never undefined and stays within
    the bound. *)
Lemma exec_within_capacity c s :
  length (queue_ s) <= kMaxSize ->
  match exec kMaxSize c s with
  | Return r s' _ =>
      length (queue_ s') <= kMaxSize /\
      (forall n, r = ret_size n -> n <= kMaxSize)
  | Suspend _ => True
  | Undefined => False
  end.
Proof.
  destruct s as [q a]; simpl; intros L.
  destruct c; simpl.
  - split; [exact L | intros n [= <-]; exact L].
  - split; [exact L | intros n [= <-]; exact L].
  - rewrite emplace_wait_if_full_cases.
    destruct (is_full kMaxSize (Build q a)) eqn:F; simpl.
    + destruct a; simpl; [split; [exact L | discriminate] | exact I].
    + apply is_full_false in F; simpl in F.
      split; [rewrite length_app; simpl; lia | discriminate].
  - rewrite emplace_overwrite_oldest_spec; simpl.
    split; [apply length_latest | discriminate].
  - destruct q as [|y q].
    + rewrite pop_if_not_empty_nil; simpl. split; [lia | discriminate].
    + rewrite pop_if_not_empty_cons; simpl. simpl in L.
      split; [lia | discriminate].
  - destruct q as [|y q].
    + rewrite pop_wait_if_empty_nil.
      destruct a; simpl; [split; [lia | discriminate] | exact I].
    + rewrite pop_wait_if_empty_cons; simpl. simpl in L.
      split; [lia | discriminate].
  - split; [exact L | discriminate].
  - split; [exact L | discriminate].
Qed.

Lemma run_within_capacity calls : forall s,
  length (queue_ s) <= kMaxSize ->
  exists s' log,
    run kMaxSize calls s = Some (s', log) /\
    length (queue_ s') <= kMaxSize /\
    Forall (fun r => forall n, r = Some (ret_size n) -> n <= kMaxSize) log.
Proof.
  induction calls as [|c calls IH]; simpl; intros s L.
  - exists s, []. auto.
  - pose proof (exec_within_capacity c s L) as X.
    destruct (exec kMaxSize c s) as [r s1 n| |]; [| |contradiction].
    + destruct X as [L1 Hr].
      destruct (IH s1 L1) as (s' & log & -> & L' & F).
      exists s', (Some r :: log). repeat split; auto.
      constructor; [intros m [= ->]; auto | exact F].
    + destruct (IH s L) as (s' & log & -> & L' & F).
      exists s', (None :: log). repeat split; auto.
      constructor; [discriminate | exact F].
Qed.

(** C5: whatever calls are made on a new queue, in whatever order, none
    is undefined (no [pop] of an empty queue), the number of elements
    stays between 0 and [kMaxSize], and every [size()] reports a number
    within these bounds. *)
Theorem capacity_invariant calls :
  exists s log,
    run kMaxSize calls init = Some (s, log) /\
    0 <= std.size (queue_ s) <= kMaxSize /\
    Forall (fun r => forall n, r = Some (ret_size n) -> 0 <= n <= kMaxSize)
      log.
Proof.
  destruct (@run_within_capacity calls init) as (s & log & R & L & F).
  - simpl; lia.
  - exists s, log. unfold std.size. repeat split; auto; try lia.
    eapply Forall_impl; [exact F|]. simpl. intros r H n E.
    specialize (H n E). lia.
Qed.

(** ** Overwriting the oldest *)

Lemma run_overwrite xs : forall q a,
  length q <= kMaxSize ->
  run kMaxSize (map EmplaceOverwriteOldest xs) (Build q a)
  = Some (Build (latest kMaxSize (q ++ xs)) a,
          map (fun _ => Some ret_void) xs).
Proof.
  induction xs as [|x xs IH]; intros q a L; simpl.
  - rewrite app_nil_r, latest_short by exact L. reflexivity.
  - rewrite emplace_overwrite_oldest_spec; simpl.
    unfold with_queue; simpl.
    rewrite IH by apply length_latest.
    rewrite latest_app, <- app_assoc. reflexivity.
Qed.

(** C6: [emplace_overwrite_oldest] returns from every state; on a full
    queue it removes the front element and appends the new item at the
    back; and [kMaxSize + 1] such pushes into a full queue leave the
    last [kMaxSize] items pushed, in the order they were pushed. *)
Theorem emplace_overwrite_oldest_keeps_latest q a xs :
  length q = kMaxSize ->
  length xs = kMaxSize + 1 ->
  (forall x s, exists s',
     emplace_overwrite_oldest kMaxSize x s
     = Return tt s' [not_empty_notifier_]) /\
  (forall x y q',
     q = y :: q' ->
     emplace_overwrite_oldest kMaxSize x (Build q a)
     = Return tt (Build (q' ++ [x]) a) [not_empty_notifier_]) /\
  run kMaxSize (map EmplaceOverwriteOldest xs) (Build q a)
  = Some (Build (drop 1 xs) a, map (fun _ => Some ret_void) xs) /\
  drop 1 xs = latest kMaxSize (q ++ xs) /\
  length (drop 1 xs) = kMaxSize.
Proof.
  intros Lq Lxs.
  assert (E : latest kMaxSize (q ++ xs) = drop 1 xs).
  { unfold latest. rewrite length_app, drop_app_ge by lia.
    f_equal; lia. }
  split; [|split; [|split; [|split]]].
  - intros x s. rewrite emplace_overwrite_oldest_spec. eauto.
  - intros x y q' ->. rewrite emplace_overwrite_oldest_spec.
    unfold with_queue, latest; simpl. rewrite length_app; simpl.
    simpl in Lq.
    replace (S (length q' + 1) - kMaxSize) with 1 by lia. reflexivity.
  - rewrite run_overwrite by lia. rewrite E. reflexivity.
  - symmetry; exact E.
  - rewrite length_drop. lia.
Qed.

(** ** First in, first out *)

Lemma popped_count log :
  length (popped log) <= successful_pops log.
Proof.
  induction log as [|[[n|b|[|] [|x]|]|] log IH]; simpl; lia.
Qed.

(** Without overwriting pushes, the items pushed so far are the items
    removed so far followed by the items still queued. *)
Lemma run_fifo calls : forall s s' log,
  existsb is_overwrite calls = false ->
  existsb null_destination calls = false ->
  run kMaxSize calls s = Some (s', log) ->
  queue_ s ++ pushed calls log = popped log ++ queue_ s' /\
  successful_pops log = length (popped log).
Proof.
  induction calls as [|c calls IH]; simpl; intros s s' log O N R.
  - inversion R; subst; simpl. rewrite app_nil_r. auto.
  - apply orb_false_elim in O as [Oc O], N as [Nc N].
    destruct (exec kMaxSize c s) as [r s1 n| |] eqn:X; [| |discriminate].
    + destruct (run kMaxSize calls s1) as [[s2 l]|] eqn:R1; [|discriminate].
      inversion R; subst s' log; clear R.
      destruct (IH _ _ _ O N R1) as [E C].
      destruct s as [q a]; simpl in *.
      destruct c; simpl in X; try discriminate Oc.
      * inversion X; subst; simpl in *. auto.
      * inversion X; subst; simpl in *. auto.
      * rewrite emplace_wait_if_full_cases in X; simpl in X.
        destruct (is_full _ _); [destruct a; [|discriminate]|];
          inversion X; subst; simpl in *; auto.
        rewrite <- app_assoc in E. auto.
      * destruct value as [|v]; [discriminate Nc|].
        destruct q as [|y q];
          [rewrite pop_if_not_empty_nil in X
          |rewrite pop_if_not_empty_cons in X];
          inversion X; subst; simpl in *; auto.
        rewrite E. auto.
      * destruct value as [|v]; [discriminate Nc|].
        destruct q as [|y q];
          [rewrite pop_wait_if_empty_nil in X; destruct a; [|discriminate]
          |rewrite pop_wait_if_empty_cons in X];
          inversion X; subst; simpl in *; auto.
        rewrite E. auto.
      * inversion X; subst; simpl in *. auto.
      * inversion X; subst; simpl in *. auto.
    + destruct (run kMaxSize calls s) as [[s2 l]|] eqn:R1; [|discriminate].
      inversion R; subst s' log; clear R.
      destruct (IH _ _ _ O N R1) as [E C].
      destruct c; simpl; auto.
Qed.

(** C7: take any sequence of calls on a new queue with no
    [emplace_overwrite_oldest] among them, and whose pops have a place
    to store the item.  The run is defined; the items handed out by the
    successful pops form a prefix of the items pushed, in the order of
    the pushes; and when as many pops as pushes have succeeded, the pops
    have handed out exactly the items pushed, in that order. *)
Theorem fifo_order calls :
  existsb is_overwrite calls = false ->
  existsb null_destination calls = false ->
  exists s log,
    run kMaxSize calls init = Some (s, log) /\
    pushed calls log = popped log ++ queue_ s /\
    (successful_pops log = length (pushed calls log) ->
     popped log = pushed calls log).
Proof.
  intros O N.
  destruct (@run_within_capacity calls init) as (s & log & R & _);
    [simpl; lia|].
  exists s, log. split; [exact R|].
  destruct (run_fifo _ _ O N R) as [E C]. simpl in E.
  split; [exact E|].
  intros P. rewrite E, length_app in P.
  assert (Z : queue_ s = []) by (apply length_zero_iff_nil; lia).
  rewrite E, Z, app_nil_r. reflexivity.
Qed.

(** ** Who is woken *)

(** Only the two pops notify [not_full_notifier_]. *)
Lemma exec_notified c s r s' notified :
  is_pop c = false ->
  exec kMaxSize c s = Return r s' notified ->
  notified = [] \/ notified = [not_empty_notifier_].
Proof.
  intros P E. destruct c; simpl in E; try discriminate P.
  - inversion E; auto.
  - inversion E; auto.
  - rewrite emplace_wait_if_full_cases in E.
    destruct (is_full _ _); [destruct (alert_for_exit_ s)|];
      inversion E; auto.
  - unfold emplace_overwrite_oldest in E.
    destruct (pop_while_full _ _); inversion E; auto.
  - inversion E; auto.
  - inversion E; auto.
Qed.

Lemma step_keeps_waiting_not_full thread c (m m' : monitor T) r :
  is_pop c = false ->
  step kMaxSize thread c m = Some (m', r) ->
  incl (waiting_not_full m) (waiting_not_full m').
Proof.
  unfold step. intros P E.
  destruct (suspended thread m); [discriminate|].
  destruct (exec kMaxSize c (object m)) as [r1 s1 n| |] eqn:X;
    [| |discriminate].
  - destruct (exec_notified _ _ P X) as [-> | ->];
      inversion E; subst; simpl; apply incl_refl.
  - inversion E; subst. destruct cv; simpl;
      [apply incl_refl | apply incl_appl, incl_refl].
Qed.

Lemma steps_keep_waiting_not_full schedule : forall (m m' : monitor T),
  forallb (fun tc => negb (is_pop (snd tc))) schedule = true ->
  steps kMaxSize schedule m = Some m' ->
  incl (waiting_not_full m) (waiting_not_full m').
Proof.
  induction schedule as [|[thread c] schedule IH]; simpl; intros m m' P E.
  - inversion E; subst. apply incl_refl.
  - apply andb_prop in P as [Pc P]. apply negb_true_iff in Pc.
    destruct (step kMaxSize thread c m) as [[m1 r]|] eqn:X; [|discriminate].
    eapply incl_tran; [eapply step_keeps_waiting_not_full; eauto|].
    apply IH; auto.
Qed.

Lemma waiting_not_full_suspended thread (m : monitor T) :
  In thread (waiting_not_full m) -> suspended thread m = true.
Proof.
  intros H. unfold suspended. apply existsb_exists.
  exists thread. split; [apply in_or_app; auto | apply Nat.eqb_refl].
Qed.

End MutexQueue_properties.

(** ** Instances *)

Section MutexQueue_instances.
Import MutexQueue.

(** A queue of capacity 2, cancelled while empty, admits a blocking
    push. *)
Lemma emplace_wait_if_full_after_alert_admits :
  alert_for_exit (@init nat) = Return tt (Build [] true) [not_empty_notifier_]
  /\ emplace_wait_if_full 2 7 (Build [] true)
     = Return true (Build [7] true) [not_empty_notifier_]
  /\ emplace_wait_if_full 2 7 (Build [] true) <> Return false (Build [] true) [].
Proof. repeat split. discriminate. Qed.

Lemma emplace_wait_if_full_after_alert_full :
  alert_for_exit_ (Build ([] : list nat) true) = true /\
  run 2 [EmplaceWaitIfFull 1; EmplaceWaitIfFull 2] (Build [] true)
  = Some (Build [1; 2] true, [Some (ret_bool true); Some (ret_bool true)]) /\
  emplace_wait_if_full 2 3 (Build [1; 2] true)
  = Return false (Build [1; 2] true) [].
Proof.
  split; [reflexivity|]. split; [reflexivity|].
  apply (@emplace_wait_if_full_after_alert nat 2 (Build [] true)
           [EmplaceWaitIfFull 1; EmplaceWaitIfFull 2] (Build [1; 2] true)
           [Some (ret_bool true); Some (ret_bool true)] 3
           eq_refl eq_refl).
Defined.

(** A cancelled, empty queue of capacity 2: the pop returns [false]; a
    push is admitted all the same, and the next pop returns the item. *)
Lemma pop_wait_if_empty_after_alert_and_push :
  run 2
    [AlertForExit; PopWaitIfEmpty (std.address_of 0); EmplaceWaitIfFull 7;
     PopWaitIfEmpty (std.address_of 0)]
    init
  = Some (Build [] true,
          [Some ret_void; Some (ret_pop false (std.address_of 0));
           Some (ret_bool true); Some (ret_pop true (std.address_of 7))]) /\
  pop_wait_if_empty (std.address_of 0) (Build [] true)
  = Return (false, std.address_of 0) (Build [] true) [] /\
  emplace_wait_if_full 2 7 (Build [] true)
  = Return true (Build [7] true) [not_empty_notifier_] /\
  pop_wait_if_empty (std.address_of 0) (Build [7] true)
  = Return (true, std.address_of 7) (Build [] true) [not_full_notifier_].
Proof. repeat split. Qed.

Lemma pop_wait_if_empty_after_alert_drains :
  alert_for_exit_ (Build [5; 6] true) = true /\
  run 2 [PopWaitIfEmpty (std.address_of 0)] (Build [5; 6] true)
  = Some (Build [6] true, [Some (ret_pop true (std.address_of 5))]) /\
  pop_wait_if_empty (std.address_of 0) (Build [6] true)
  = Return (true, std.address_of 6) (Build [] true) [not_full_notifier_].
Proof.
  split; [reflexivity|]. split; [reflexivity|].
  apply (@pop_wait_if_empty_after_alert nat 2 (Build [5; 6] true)
           [PopWaitIfEmpty (std.address_of 0)] (Build [6] true)
           [Some (ret_pop true (std.address_of 5))] (std.address_of 0)
           eq_refl eq_refl).
  reflexivity.
Defined.

Lemma capacity_invariant_two :
  0 < 2 /\
  exists s log,
    run 2 [EmplaceWaitIfFull 1; EmplaceOverwriteOldest 2;
           EmplaceOverwriteOldest 3; Size; PopIfNotEmpty std.nullptr]
      init = Some (s, log) /\
    0 <= std.size (queue_ s) <= 2 /\
    Forall (fun r => forall n, r = Some (ret_size n) -> 0 <= n <= 2) log.
Proof.
  split; [lia|].
  apply (@capacity_invariant nat 2 ltac:(lia)).
Defined.

Lemma emplace_overwrite_oldest_keeps_latest_two :
  0 < 2 /\ length [1; 2] = 2 /\ length [3; 4; 5] = 2 + 1 /\
  run 2 (map EmplaceOverwriteOldest [3; 4; 5]) (Build [1; 2] false)
  = Some (Build [4; 5] false, [Some ret_void; Some ret_void; Some ret_void]).
Proof.
  split; [lia|]. split; [reflexivity|]. split; [reflexivity|].
  apply (@emplace_overwrite_oldest_keeps_latest nat 2 ltac:(lia)
           [1; 2] false [3; 4; 5] eq_refl eq_refl).
Defined.

Lemma fifo_order_two :
  let calls := [EmplaceWaitIfFull 1; EmplaceWaitIfFull 2;
                PopWaitIfEmpty (std.address_of 0);
                PopIfNotEmpty (std.address_of 0)] in
  0 < 2 /\
  existsb is_overwrite calls = false /\
  existsb null_destination calls = false /\
  exists s log,
    run 2 calls init = Some (s, log) /\
    pushed calls log = popped log ++ queue_ s /\
    (successful_pops log = length (pushed calls log) ->
     popped log = pushed calls log).
Proof.
  intros calls.
  split; [lia|]. split; [reflexivity|]. split; [reflexivity|].
  apply (@fifo_order nat 2 ltac:(lia) calls eq_refl eq_refl).
Defined.

(** C2, evaluated: a queue of capacity 1.  Thread 1 fills it, thread 2
    is suspended in [emplace_wait_if_full] on [not_full_notifier_], and
    thread 0 calls [alert_for_exit].  The call notifies
    [not_empty_notifier_] only: thread 2 is still on the list of
    [not_full_notifier_], although the predicate it waits for now holds
    and its call would return [false]; it makes no step, and stays
    suspended through whatever the other threads call, as long as none
    of them pops. *)
Theorem alert_for_exit_leaves_producer_suspended :
  (forall s : t nat,
     alert_for_exit s
     = Return tt (Build (queue_ s) true) [not_empty_notifier_]) /\
  exists m,
    steps 1 [(1, EmplaceWaitIfFull 10); (2, EmplaceWaitIfFull 20);
             (0, AlertForExit)]
      (Monitor init [] [])
    = Some m /\
    m = Monitor (Build [10] true) [] [2] /\
    suspended 2 m = true /\
    emplace_wait_if_full 1 20 (object m) = Return false (object m) [] /\
    (forall c, step 1 2 c m = None) /\
    (forall schedule,
       match
         steps 1 (List.filter (fun tc => negb (is_pop (snd tc))) schedule) m
       with
       | Some m' => suspended 2 m' = true
       | None => True
       end).
Proof.
  split; [reflexivity|].
  eexists. split; [reflexivity|]. split; [reflexivity|].
  split; [reflexivity|]. split; [reflexivity|].
  split; [reflexivity|].
  intros schedule.
  destruct (steps 1 _ _) as [m'|] eqn:E; [|exact I].
  apply waiting_not_full_suspended.
  eapply steps_keep_waiting_not_full; [|exact E|simpl; auto].
  apply forallb_forall. intros tc H.
  apply filter_In in H. tauto.
Qed.

End MutexQueue_instances.

(** * Properties of ThreadPool *)

Section ThreadPool_properties.
Import MutexQueue ThreadPool.

Variables val exn : Type.

Implicit Types (p : ThreadPool.t val exn) (fn : unit -> completion exn val).
Implicit Types (task : packaged_task_void val exn) (i n future : nat).
Implicit Types (heap : list (option (completion exn val))).

(** ** The calls, case by case *)

Lemma enqueue_cases fn p :
  enqueue fn p
  = let task_ptr := {| callable := fn; state := length (heap_ p) |} in
    if is_full kMaxSize (task_queue_ p)
    then if alert_for_exit_ (task_queue_ p)
         then Return (length (heap_ p))
                (ThreadPool.Build (thread_pool_ p) (task_queue_ p)
                   (max_thread_number_ p)
                   (abandon task_ptr (heap_ p ++ [None])))
                []
         else Suspend not_full_notifier_
    else Return (length (heap_ p))
           (ThreadPool.Build (thread_pool_ p)
              (with_queue (task_queue_ p)
                 (queue_ (task_queue_ p) ++ [closure task_ptr]))
              (max_thread_number_ p) (heap_ p ++ [None]))
           [not_empty_notifier_].
Proof.
  unfold enqueue. rewrite emplace_wait_if_full_cases; simpl.
  destruct (is_full _ _); [destruct (alert_for_exit_ _)|]; reflexivity.
Qed.

Lemma thread_task_idle i p :
  thread_pool_ p !! i <> Some looping -> thread_task i p = Return tt p [].
Proof.
  unfold thread_task. intros H.
  destruct (thread_pool_ p !! i) as [[| |]|]; congruence.
Qed.

Lemma thread_task_nil i p a :
  thread_pool_ p !! i = Some looping ->
  task_queue_ p = MutexQueue.Build [] a ->
  thread_task i p
  = if a
    then Return tt
           (ThreadPool.Build (<[i := finished]> (thread_pool_ p))
              (task_queue_ p) (max_thread_number_ p) (heap_ p))
           []
    else Suspend not_empty_notifier_.
Proof.
  unfold thread_task. intros -> ->.
  rewrite pop_wait_if_empty_nil. destruct a; reflexivity.
Qed.

Lemma thread_task_cons i p task_ptr q a :
  thread_pool_ p !! i = Some looping ->
  task_queue_ p = MutexQueue.Build (closure task_ptr :: q) a ->
  heap_ p !! state task_ptr = Some None ->
  thread_task i p
  = Return tt
      (ThreadPool.Build (thread_pool_ p) (MutexQueue.Build q a)
         (max_thread_number_ p)
         (<[state task_ptr := Some (callable task_ptr tt)]> (heap_ p)))
      [not_full_notifier_].
Proof.
  unfold thread_task. intros Hi -> Hs. rewrite Hi.
  rewrite pop_wait_if_empty_cons; simpl.
  unfold invoke. rewrite Hs.
  rewrite list_insert_id by exact Hi. reflexivity.
Qed.

(** ** The invariant holds in every history *)

Lemma wf_ThreadPool n : wf (ThreadPool val exn n).
Proof.
  constructor; simpl.
  - constructor.
  - constructor.
  - lia.
  - apply Forall_replicate. discriminate.
  - intros _. apply Forall_replicate. reflexivity.
  - apply length_replicate.
Qed.

Lemma pending_lt heap task :
  pending heap task -> exists k, state_of task = Some k /\ k < length heap.
Proof.
  destruct task as [|tp]; simpl; [contradiction|].
  intros H. exists (state tp). split; [reflexivity|].
  eapply lookup_lt_Some; eauto.
Qed.

Lemma pending_app heap task :
  pending heap task -> pending (heap ++ [None]) task.
Proof.
  destruct task as [|tp]; simpl; [contradiction|].
  intros H. rewrite lookup_app_l; [exact H|].
  eapply lookup_lt_Some; eauto.
Qed.

Lemma pending_insert heap task k r :
  state_of task <> Some k ->
  pending heap task -> pending (<[k := r]> heap) task.
Proof.
  destruct task as [|tp]; simpl; [contradiction|].
  intros N H. rewrite list_lookup_insert_ne; [exact H|congruence].
Qed.

Lemma wf_enqueue fn p :
  wf p ->
  match enqueue fn p with
  | Return _ p' _ => wf p'
  | Suspend _ => True
  | Undefined => False
  end.
Proof.
  intros [Q D C TH LP NB]. rewrite enqueue_cases; simpl.
  destruct (is_full kMaxSize (task_queue_ p)) eqn:F.
  - destruct (alert_for_exit_ (task_queue_ p)) eqn:A; [|exact I].
    constructor; simpl; auto; [|congruence].
    unfold abandon; simpl.
    rewrite lookup_app_r, Nat.sub_diag by lia. simpl.
    eapply Forall_impl; [exact Q|]. intros task H.
    apply pending_insert; [|apply pending_app; exact H].
    destruct (pending_lt _ _ H) as (k & -> & L). intros [= ->]. lia.
  - apply is_full_false in F.
    constructor; simpl; auto.
    + apply Forall_app. split.
      * eapply Forall_impl; [exact Q|]. apply pending_app.
      * constructor; [|constructor]. simpl.
        rewrite lookup_app_r, Nat.sub_diag by lia. reflexivity.
    + rewrite map_app. apply NoDup_app. split; [exact D|]. split.
      * intros k Hk. simpl. intros Hin.
        apply list_elem_of_singleton in Hin. subst k.
        apply list_elem_of_In, in_map_iff in Hk as (task & E & Hin).
        rewrite Forall_forall in Q.
        apply list_elem_of_In in Hin.
        destruct (pending_lt _ _ (Q _ Hin)) as (k & E' & L).
        rewrite E in E'. inversion E'. lia.
      * simpl. apply NoDup_singleton.
    + rewrite length_app; simpl. unfold kMaxSize in *. lia.
Qed.

Lemma wf_thread_task i p :
  wf p ->
  match thread_task i p with
  | Return _ p' _ => wf p'
  | Suspend _ => True
  | Undefined => False
  end.
Proof.
  intros W.
  destruct (thread_pool_ p !! i) as [th|] eqn:Hi;
    [destruct th|]; try (rewrite thread_task_idle by congruence; exact W).
  destruct W as [Q D C TH LP NB].
  destruct (task_queue_ p) as [q a] eqn:TQ; simpl in *.
  destruct q as [|task q].
  - rewrite (@thread_task_nil i p a Hi TQ).
    destruct a; [|exact I].
    constructor; simpl; rewrite ?TQ; simpl; auto.
    + apply Forall_insert; [exact TH | discriminate].
    + discriminate.
    + rewrite length_insert. exact NB.
  - apply Forall_cons in Q as [P Q].
    destruct task as [|tp]; [contradiction|]. simpl in P, D.
    apply NoDup_cons in D as [N D].
    rewrite (@thread_task_cons i p tp q a Hi TQ P).
    constructor; simpl in *; auto; [|lia].
    rewrite Forall_forall in Q. apply Forall_forall. intros task Hin.
    apply pending_insert; [|apply Q; exact Hin].
    intros E. apply N. rewrite <- E.
    apply list_elem_of_In, in_map, list_elem_of_In, Hin.
Qed.

Lemma wf_destroy p :
  wf p ->
  match destroy p with
  | Return _ p' _ => wf p'
  | Suspend _ => True
  | Undefined => False
  end.
Proof.
  intros [Q D C TH LP NB]. simpl.
  constructor; simpl; auto. discriminate.
Qed.

Lemma wf_handle e p :
  wf p ->
  match handle e p with
  | Return _ p' _ => wf p'
  | Suspend _ => True
  | Undefined => False
  end.
Proof.
  intros W. destruct e as [fn|i|]; simpl.
  - pose proof (wf_enqueue fn W) as H.
    destruct (enqueue fn p); simpl; exact H.
  - apply wf_thread_task, W.
  - apply wf_destroy, W.
Qed.

(** No history of a pool is undefined, and the invariant holds at its
    end. *)
Lemma wf_history events : forall p,
  wf p -> exists p', history events p = Some p' /\ wf p'.
Proof.
  induction events as [|e events IH]; simpl; intros p W.
  - eauto.
  - pose proof (wf_handle e W) as H.
    destruct (handle e p) as [r p1 n| |]; [| |contradiction]; auto.
Qed.

(** ** From the task body to the future *)

Lemma abandon_lookup fn heap future :
  future < length heap ->
  abandon {| callable := fn; state := length heap |} (heap ++ [None])
  !! future
  = heap !! future.
Proof.
  intros L. unfold abandon; simpl.
  rewrite lookup_app_r, Nat.sub_diag by lia.
  transitivity ((heap ++ [None]) !! future).
  - apply list_lookup_insert_ne. lia.
  - apply lookup_app_l. exact L.
Qed.

Lemma tracked_handle fn future e p :
  wf p -> tracked fn future p ->
  match handle e p with
  | Return _ p' _ => tracked fn future p'
  | Suspend _ => True
  | Undefined => False
  end.
Proof.
  intros W [(pre & post & Eq & Hf & LP) | Hf].
  - (* still queued *)
    assert (Lf : future < length (heap_ p)) by (eapply lookup_lt_Some; eauto).
    destruct e as [fn'|i|]; simpl.
    + rewrite enqueue_cases; simpl.
      destruct (is_full _ _); [destruct (alert_for_exit_ _); [|exact I]|];
        simpl; left.
      * exists pre, post. repeat split; auto.
        cbn [heap_]. rewrite abandon_lookup by exact Lf. exact Hf.
      * exists pre, (post ++ [closure {| callable := fn';
                                        state := length (heap_ p) |}]).
        cbn [heap_ thread_pool_ task_queue_ queue_ with_queue].
        rewrite Eq, <- app_assoc. simpl. repeat split; auto.
        rewrite lookup_app_l by lia. exact Hf.
    + destruct (thread_pool_ p !! i) as [th|] eqn:Hi.
      2:{ rewrite thread_task_idle by congruence. left. eauto 6. }
      assert (th = looping) as ->.
      { rewrite Forall_forall in LP. apply LP.
        eapply list_elem_of_lookup_2; eauto. }
      destruct (task_queue_ p) as [q a] eqn:TQ. simpl in Eq. subst q.
      destruct pre as [|task0 pre]; simpl in TQ.
      * rewrite (@thread_task_cons i p _ _ a Hi TQ Hf).
        right. cbn [heap_]. apply list_lookup_insert_eq. exact Lf.
      * pose proof (wf_pending W) as Q. pose proof (wf_distinct W) as D.
        rewrite TQ in Q, D. simpl in Q, D.
        apply Forall_cons in Q as [P0 _].
        apply NoDup_cons in D as [N0 _].
        destruct task0 as [|tp0]; [contradiction|]. simpl in P0, N0.
        rewrite (@thread_task_cons i p _ _ a Hi TQ P0).
        left. exists pre, post.
        cbn [heap_ thread_pool_ task_queue_ queue_].
        repeat split; auto.
        rewrite list_lookup_insert_ne; [exact Hf|].
        intros E. apply N0. rewrite E, map_app. simpl.
        apply list_elem_of_In, in_or_app. right. left. reflexivity.
    + left. exists pre, post. auto.
  - (* has run *)
    assert (Lf : future < length (heap_ p)) by (eapply lookup_lt_Some; eauto).
    destruct e as [fn'|i|]; simpl.
    + rewrite enqueue_cases; simpl.
      destruct (is_full _ _); [destruct (alert_for_exit_ _); [|exact I]|];
        simpl; right.
      * cbn [heap_]. rewrite abandon_lookup by exact Lf. exact Hf.
      * cbn [heap_]. rewrite lookup_app_l by lia. exact Hf.
    + destruct (thread_pool_ p !! i) as [th|] eqn:Hi;
        [destruct th|];
        try (rewrite thread_task_idle by congruence; right; exact Hf).
      destruct (task_queue_ p) as [q a] eqn:TQ.
      destruct q as [|task0 q].
      * rewrite (@thread_task_nil i p a Hi TQ).
        destruct a; [|exact I]. simpl. right; exact Hf.
      * pose proof (wf_pending W) as Q. rewrite TQ in Q. simpl in Q.
        apply Forall_cons in Q as [P0 _].
        destruct task0 as [|tp0]; [contradiction|]. simpl in P0.
        rewrite (@thread_task_cons i p _ _ a Hi TQ P0).
        right. cbn [heap_].
        rewrite list_lookup_insert_ne; [exact Hf | congruence].
    + right; exact Hf.
Qed.

Lemma tracked_history fn future events : forall p,
  wf p -> tracked fn future p ->
  exists p',
    history events p = Some p' /\ wf p' /\ tracked fn future p'.
Proof.
  induction events as [|e events IH]; simpl; intros p W H.
  - eauto.
  - pose proof (wf_handle e W) as W'.
    pose proof (tracked_handle e W H) as H'.
    destruct (handle e p) as [r p1 ns| |]; [| |contradiction]; auto.
Qed.

(** The number of threads is fixed by the constructor. *)
Lemma handle_threads e p :
  wf p ->
  match handle e p with
  | Return _ p' _ => length (thread_pool_ p') = length (thread_pool_ p)
  | Suspend _ => True
  | Undefined => False
  end.
Proof.
  intros W. destruct e as [fn|i|]; simpl.
  - rewrite enqueue_cases; simpl.
    destruct (is_full _ _); [destruct (alert_for_exit_ _)|]; simpl; auto.
  - destruct (thread_pool_ p !! i) as [th|] eqn:Hi;
      [destruct th|];
      try (rewrite thread_task_idle by congruence; reflexivity).
    destruct (task_queue_ p) as [q a] eqn:TQ.
    destruct q as [|task0 q].
    + rewrite (@thread_task_nil i p a Hi TQ).
      destruct a; [|exact I]. simpl. apply length_insert.
    + pose proof (wf_pending W) as Q. rewrite TQ in Q. simpl in Q.
      apply Forall_cons in Q as [P0 _].
      destruct task0 as [|tp0]; [contradiction|]. simpl in P0.
      rewrite (@thread_task_cons i p _ _ a Hi TQ P0). reflexivity.
  - reflexivity.
Qed.

Lemma history_threads events : forall p p',
  wf p -> history events p = Some p' ->
  length (thread_pool_ p') = length (thread_pool_ p).
Proof.
  induction events as [|e events IH]; simpl; intros p p' W H.
  - inversion H; reflexivity.
  - pose proof (wf_handle e W) as W'.
    pose proof (handle_threads e W) as L.
    destruct (handle e p) as [r p1 ns| |]; [| |contradiction]; auto.
    rewrite (IH _ _ W' H). exact L.
Qed.

(** A thread in its loop reaches a queued task after running the tasks
    in front of it. *)
Lemma iterate_reaches fn future i pre : forall p post,
  wf p ->
  queue_ (task_queue_ p)
  = pre ++ closure {| callable := fn; state := future |} :: post ->
  heap_ p !! future = Some None ->
  thread_pool_ p !! i = Some looping ->
  exists p',
    history (replicate (S (length pre)) (Iterate i)) p = Some p' /\
    heap_ p' !! future = Some (Some (fn tt)) /\
    thread_pool_ p' !! i = Some looping.
Proof.
  induction pre as [|task0 pre IH]; intros p post W Eq Hf Hi;
    destruct (task_queue_ p) as [q a] eqn:TQ; simpl in Eq; subst q.
  - simpl. rewrite (@thread_task_cons i p _ _ a Hi TQ Hf).
    eexists. split; [reflexivity|]. simpl. split; [|exact Hi].
    apply list_lookup_insert_eq. eapply lookup_lt_Some; eauto.
  - pose proof (wf_pending W) as Q. pose proof (wf_distinct W) as D.
    pose proof (wf_thread_task i W) as W'.
    rewrite TQ in Q, D. simpl in Q, D.
    apply Forall_cons in Q as [P0 _].
    apply NoDup_cons in D as [N0 _].
    destruct task0 as [|tp0]; [contradiction|]. simpl in P0, N0.
    simpl length. simpl replicate. simpl history.
    rewrite (@thread_task_cons i p _ _ a Hi TQ P0) in *.
    apply (IH _ post W'); simpl; auto.
    rewrite list_lookup_insert_ne; [exact Hf|].
    intros E. apply N0. rewrite E, map_app. simpl.
    apply list_elem_of_In, in_or_app. right. left. reflexivity.
Qed.

(** *** The end of the destructor *)

Lemma abandon_ready task_ptr heap k r :
  heap !! k = Some (Some r) -> abandon task_ptr heap !! k = Some (Some r).
Proof.
  intros H. unfold abandon.
  destruct (heap !! state task_ptr) as [[c|]|] eqn:E; auto.
  rewrite list_lookup_insert_ne; [exact H|]. intros Ek. congruence.
Qed.

Lemma abandon_all_ready q : forall heap k r,
  heap !! k = Some (Some r) ->
  fold_left (fun heap task => abandon_void task heap) q heap !! k
  = Some (Some r).
Proof.
  induction q as [|task q IH]; simpl; intros heap k r H; [exact H|].
  apply IH. destruct task; simpl; auto using abandon_ready.
Qed.

Lemma abandon_all_queued q : forall heap task_ptr,
  In (closure task_ptr) q ->
  heap !! state task_ptr = Some None ->
  fold_left (fun heap task => abandon_void task heap) q heap
  !! state task_ptr
  = Some (Some (raised (future_error broken_promise))).
Proof.
  induction q as [|task0 q IH]; intros heap tp Hin Hf; [contradiction|].
  simpl. destruct task0 as [|tp0]; simpl.
  - destruct Hin as [E | Hin]; [discriminate|]. apply IH; assumption.
  - destruct (Nat.eq_dec (state tp0) (state tp)) as [E | N].
    + apply abandon_all_ready. unfold abandon. rewrite E, Hf.
      apply list_lookup_insert_eq. eapply lookup_lt_Some; eauto.
    + destruct Hin as [E | Hin];
        [inversion E; subst; contradiction N; reflexivity|].
      apply IH; [exact Hin|]. unfold abandon.
      destruct (heap !! state tp0) as [[c|]|]; auto.
      rewrite list_lookup_insert_ne; auto.
Qed.

(** A join waits for a thread that is in its loop. *)
Lemma finish_waits p n :
  0 < n -> length (thread_pool_ p) = n ->
  Forall (fun th => th = looping) (thread_pool_ p) ->
  finish p = None.
Proof.
  intros Hn L LP. unfold finish, joined.
  destruct (thread_pool_ p) as [|th ths]; [simpl in L; lia|].
  apply Forall_cons in LP as [-> _]. simpl.
  rewrite andb_false_r. reflexivity.
Qed.

(** What [enqueue] admits into a pool with a worker thread, before the
    destructor has begun, is run before the destructor ends. *)
Lemma enqueue_outcome_reaches_future n events0 p fn future p' notified :
  0 < n ->
  history events0 (ThreadPool val exn n) = Some p ->
  alert_for_exit_ (task_queue_ p) = false ->
  enqueue fn p = Return future p' notified ->
  forall events, exists p'',
    history events p' = Some p'' /\
    Forall (fun th => th <> terminated) (thread_pool_ p'') /\
    (heap_ p'' !! future = Some (Some (fn tt)) \/
     heap_ p'' !! future = Some None /\
     finish p'' = None /\
     exists pre post,
       queue_ (task_queue_ p'')
       = pre ++ closure {| callable := fn; state := future |} :: post /\
       forall i, i < n ->
         exists p3,
           history (replicate (S (length pre)) (Iterate i)) p'' = Some p3 /\
           heap_ p3 !! future = Some (Some (fn tt)) /\
           thread_pool_ p3 !! i = Some looping) /\
    (forall heap,
       finish p'' = Some heap -> heap !! future = Some (Some (fn tt))).
Proof.
  intros Hn H0 A E events.
  destruct (wf_history events0 (wf_ThreadPool n)) as (p0 & H0' & W).
  rewrite H0 in H0'. inversion H0'; subst p0; clear H0'.
  pose proof (wf_enqueue fn W) as W'. rewrite E in W'.
  assert (NB : length (thread_pool_ p') = n).
  { pose proof (handle_threads (Enqueue fn) W) as L. simpl in L.
    rewrite E in L. simpl in L. rewrite L.
    rewrite (history_threads _ (wf_ThreadPool n) H0).
    apply length_replicate. }
  assert (T : tracked fn future p').
  { rewrite enqueue_cases, A in E. simpl in E.
    destruct (is_full _ _); [discriminate|].
    inversion E; subst; clear E. simpl. left.
    exists (queue_ (task_queue_ p)), []. simpl. repeat split.
    - rewrite lookup_app_r, Nat.sub_diag by lia. reflexivity.
    - apply (wf_looping W A). }
  destruct (tracked_history events W' T) as (p'' & H & W'' & T'').
  assert (NB'' : length (thread_pool_ p'') = n).
  { rewrite (history_threads _ W' H). exact NB. }
  exists p''. split; [exact H|]. split; [apply (wf_threads W'')|].
  destruct T'' as [(pre & post & Eq & Hf & LP) | Hf].
  - assert (F : finish p'' = None) by (eapply finish_waits; eauto).
    split; [|rewrite F; discriminate].
    right. split; [exact Hf|]. split; [exact F|].
    exists pre, post. split; [exact Eq|].
    intros i Hi.
    assert (Li : thread_pool_ p'' !! i = Some looping).
    { destruct (lookup_lt_is_Some_2 (thread_pool_ p'') i) as [th Hth];
        [lia|].
      rewrite Forall_forall in LP.
      rewrite (LP th) in Hth; [exact Hth|].
      eapply list_elem_of_lookup_2; eauto. }
    apply (@iterate_reaches fn future i pre p'' post W'' Eq Hf Li).
  - split; [left; exact Hf|].
    intros heap F. unfold finish in F.
    destruct (alert_for_exit_ (task_queue_ p'') && joined p'');
      inversion F; subst.
    apply abandon_all_ready, Hf.
Qed.

(** C8, as the code has it: a task whose body throws [e] is submitted to
    a pool that has a worker thread and is not being destroyed, and
    [enqueue] returns its future.  Then in every later history of the
    pool no worker thread is ended by an exception; [get] on the future
    throws [e] once the task has run, and waits before that; while it
    waits the destructor cannot end, the task is in the queue, and any
    worker thread, by running the tasks in front of it and then the task
    itself, makes [get] throw [e] and stays in its loop; and after the
    destructor has ended [get] throws [e]. *)
Theorem enqueue_error_reaches_future
    n events0 p fn e future p' notified :
  0 < n ->
  history events0 (ThreadPool val exn n) = Some p ->
  alert_for_exit_ (task_queue_ p) = false ->
  fn tt = raised (thrown e) ->
  enqueue fn p = Return future p' notified ->
  forall events, exists p'',
    history events p' = Some p'' /\
    Forall (fun th => th <> terminated) (thread_pool_ p'') /\
    (get future (heap_ p'') = Some (get_throws (thrown e)) \/
     get future (heap_ p'') = Some get_waits /\
     finish p'' = None /\
     exists pre post,
       queue_ (task_queue_ p'')
       = pre ++ closure {| callable := fn; state := future |} :: post /\
       forall i, i < n ->
         exists p3,
           history (replicate (S (length pre)) (Iterate i)) p'' = Some p3 /\
           get future (heap_ p3) = Some (get_throws (thrown e)) /\
           thread_pool_ p3 !! i = Some looping) /\
    (forall heap,
       finish p'' = Some heap ->
       get future heap = Some (get_throws (thrown e))).
Proof.
  intros Hn H0 A Hfn E events.
  destruct (@enqueue_outcome_reaches_future n events0 p fn future p'
              notified Hn H0 A E events)
    as (p'' & H & TH & D & F).
  exists p''. split; [exact H|]. split; [exact TH|]. split.
  - destruct D as [Hf | (Hf & Fn & pre & post & Eq & K)].
    + left. unfold get. rewrite Hf, Hfn. reflexivity.
    + right. unfold get at 1. rewrite Hf. split; [reflexivity|].
      split; [exact Fn|]. exists pre, post. split; [exact Eq|].
      intros i Hi. destruct (K i Hi) as (p3 & H3 & Hf3 & L3).
      exists p3. split; [exact H3|]. split; [|exact L3].
      unfold get. rewrite Hf3, Hfn. reflexivity.
  - intros heap Fh. unfold get. rewrite (F heap Fh), Hfn. reflexivity.
Qed.

(** ** The capacity of the task queue *)

(** C10: for every number of worker threads and every history of the
    pool, the task queue, whose capacity is the constant 128, holds at
    most 128 tasks, and [enqueue] suspends its caller exactly when the
    queue holds 128 tasks and has not been cancelled. *)
Theorem task_queue_capacity n events :
  kMaxSize = 128 /\
  exists p,
    history events (ThreadPool val exn n) = Some p /\
    length (queue_ (task_queue_ p)) <= 128 /\
    forall fn,
      ((exists cv, enqueue fn p = Suspend cv) <->
       length (queue_ (task_queue_ p)) = 128 /\
       alert_for_exit_ (task_queue_ p) = false) /\
      (forall cv, enqueue fn p = Suspend cv -> cv = not_full_notifier_).
Proof.
  split; [reflexivity|].
  destruct (wf_history events (wf_ThreadPool n)) as (p & H & W).
  exists p. split; [exact H|].
  pose proof (wf_capacity W) as C. unfold kMaxSize in C.
  split; [exact C|].
  intros fn. rewrite enqueue_cases; simpl.
  destruct (is_full kMaxSize (task_queue_ p)) eqn:F.
  - apply is_full_true in F. unfold kMaxSize in F.
    destruct (alert_for_exit_ (task_queue_ p)); split.
    + split; [intros [cv E]; discriminate | intros [_ E]; discriminate].
    + discriminate.
    + split; [intros _; split; [lia | reflexivity] | eauto].
    + intros cv [= <-]. reflexivity.
  - apply is_full_false in F. unfold kMaxSize in F. split.
    + split; [intros [cv E]; discriminate | intros [E _]; lia].
    + discriminate.
Qed.

End ThreadPool_properties.

(** ** Instances *)

Section ThreadPool_instances.
Import MutexQueue ThreadPool.

(** One worker thread, one task whose body throws 7. *)
Lemma enqueue_error_reaches_future_one :
  let fn := fun _ : unit => raised (A := nat) (thrown 7) in
  let p := ThreadPool nat nat 1 in
  let p' :=
    ThreadPool.Build [looping]
      (MutexQueue.Build [closure {| callable := fn; state := 0 |}] false)
      1 [None] in
  0 < 1 /\
  history [] (ThreadPool nat nat 1) = Some p /\
  alert_for_exit_ (task_queue_ p) = false /\
  fn tt = raised (thrown 7) /\
  enqueue fn p = Return 0 p' [not_empty_notifier_] /\
  forall events, exists p'',
    history events p' = Some p'' /\
    Forall (fun th => th <> terminated) (thread_pool_ p'') /\
    (get 0 (heap_ p'') = Some (get_throws (thrown 7)) \/
     get 0 (heap_ p'') = Some get_waits /\
     finish p'' = None /\
     exists pre post,
       queue_ (task_queue_ p'')
       = pre ++ closure {| callable := fn; state := 0 |} :: post /\
       forall i, i < 1 ->
         exists p3,
           history (replicate (S (length pre)) (Iterate i)) p'' = Some p3 /\
           get 0 (heap_ p3) = Some (get_throws (thrown 7)) /\
           thread_pool_ p3 !! i = Some looping) /\
    (forall heap,
       finish p'' = Some heap ->
       get 0 heap = Some (get_throws (thrown 7))).
Proof.
  intros fn p p'. split; [lia|].
  split; [reflexivity|]. split; [reflexivity|].
  split; [reflexivity|]. split; [reflexivity|].
  apply (@enqueue_error_reaches_future nat nat 1 [] p fn 7 0 p'
           [not_empty_notifier_] ltac:(lia) eq_refl eq_refl eq_refl eq_refl).
Defined.

(** The same pool after its one thread has made one iteration: [get]
    throws 7 and the thread is in its loop. *)
Example enqueue_error_then_iterate :
  let fn := fun _ : unit => raised (A := nat) (thrown 7) in
  exists future p' notified p'',
    enqueue fn (ThreadPool nat nat 1) = Return future p' notified /\
    history [Iterate 0] p' = Some p'' /\
    get future (heap_ p'') = Some (get_throws (thrown 7)) /\
    thread_pool_ p'' = [looping].
Proof. simpl. repeat eexists. Qed.

End ThreadPool_instances.

(** * Histories of a MutexQueue *)

Section MutexQueue_histories.
Import MutexQueue.

Context {T : Type}.
Variable kMaxSize : nat.

(** [static_assert(kMaxSize > 0, "max_size must be > 0")] *)
Hypothesis kMaxSize_positive : 0 < kMaxSize.

Implicit Types (s : t T) (q : list T) (x d : T) (value : std.pointer T).
Implicit Types (calls : list (call T)) (log : list (option (result T))).

Lemma run_app calls1 : forall calls2 s,
  run kMaxSize (calls1 ++ calls2) s
  = match run kMaxSize calls1 s with
    | Some (s1, log1) =>
        match run kMaxSize calls2 s1 with
        | Some (s2, log2) => Some (s2, log1 ++ log2)
        | None => None
        end
    | None => None
    end.
Proof.
  induction calls1 as [|c calls1 IH]; simpl; intros calls2 s.
  - destruct (run kMaxSize calls2 s) as [[s2 log2]|]; reflexivity.
  - destruct (exec kMaxSize c s) as [r s1 n| |]; [| |reflexivity];
      rewrite IH;
      destruct (run kMaxSize calls1 _) as [[s1' log1]|]; try reflexivity;
      destruct (run kMaxSize calls2 s1') as [[s2 log2]|]; reflexivity.
Qed.

(** ** Draining *)

Lemma run_pop_if_not_empty d a q :
  run kMaxSize (replicate (S (length q)) (PopIfNotEmpty (std.address_of d)))
    (Build q a)
  = Some (Build [] a,
          map (fun x => Some (ret_pop true (std.address_of x))) q
          ++ [Some (ret_pop false (std.address_of d))]).
Proof.
  induction q as [|x q IH]; [reflexivity|].
  change (replicate (S (length (x :: q))) (PopIfNotEmpty (std.address_of d)))
    with (PopIfNotEmpty (std.address_of d)
          :: replicate (S (length q)) (PopIfNotEmpty (std.address_of d))).
  cbn [run exec]. rewrite pop_if_not_empty_cons. cbn [answer].
  rewrite IH. reflexivity.
Qed.

Lemma run_pop_wait_if_empty d q :
  run kMaxSize (replicate (S (length q)) (PopWaitIfEmpty (std.address_of d)))
    (Build q true)
  = Some (Build [] true,
          map (fun x => Some (ret_pop true (std.address_of x))) q
          ++ [Some (ret_pop false (std.address_of d))]).
Proof.
  induction q as [|x q IH]; [reflexivity|].
  change (replicate (S (length (x :: q))) (PopWaitIfEmpty (std.address_of d)))
    with (PopWaitIfEmpty (std.address_of d)
          :: replicate (S (length q)) (PopWaitIfEmpty (std.address_of d))).
  cbn [run exec]. rewrite pop_wait_if_empty_cons. cbn [answer].
  rewrite IH. reflexivity.
Qed.

Lemma popped_delivered q log :
  popped (map (fun x => Some (ret_pop true (std.address_of x))) q ++ log)
  = q ++ popped log.
Proof. induction q as [|x q IH]; simpl; [|rewrite IH]; reflexivity. Qed.

(** X1: a loop of [pop_if_not_empty] on any queue, cancelled or not, never
    suspends: it hands out the elements from front to back, each call
    returning [true], and the call after the last element returns
    [false], leaving the destination and the empty queue as they are. *)
Theorem pop_if_not_empty_drains d a q :
  exists log,
    run kMaxSize (replicate (S (length q)) (PopIfNotEmpty (std.address_of d)))
      (Build q a)
    = Some (Build [] a, log) /\
    Forall (fun r => r <> None) log /\
    popped log = q /\
    successful_pops log = length q /\
    last log = Some (Some (ret_pop false (std.address_of d))).
Proof.
  eexists. split; [apply run_pop_if_not_empty|].
  split; [|split; [|split]].
  - apply Forall_app. split; [|repeat constructor; discriminate].
    apply Forall_forall. intros r H.
    apply list_elem_of_In, in_map_iff in H as (x & <- & _). discriminate.
  - rewrite popped_delivered. apply app_nil_r.
  - induction q as [|x q IH]; simpl; [reflexivity | rewrite IH; reflexivity].
  - apply last_snoc.
Qed.

(** X2: cancellation drains and does not discard.  On a cancelled queue
    a loop of [pop_wait_if_empty] never suspends: it hands out every
    element that was queued, from front to back, and then returns
    [false]. *)
Theorem pop_wait_if_empty_drains d q :
  exists log,
    run kMaxSize (replicate (S (length q)) (PopWaitIfEmpty (std.address_of d)))
      (Build q true)
    = Some (Build [] true, log) /\
    Forall (fun r => r <> None) log /\
    popped log = q /\
    successful_pops log = length q /\
    last log = Some (Some (ret_pop false (std.address_of d))).
Proof.
  eexists. split; [apply run_pop_wait_if_empty|].
  split; [|split; [|split]].
  - apply Forall_app. split; [|repeat constructor; discriminate].
    apply Forall_forall. intros r H.
    apply list_elem_of_In, in_map_iff in H as (x & <- & _). discriminate.
  - rewrite popped_delivered. apply app_nil_r.
  - induction q as [|x q IH]; simpl; [reflexivity | rewrite IH; reflexivity].
  - apply last_snoc.
Qed.

(** ** The cancellation flag *)

Lemma exec_alert_flag c s r s' notified :
  exec kMaxSize c s = Return r s' notified ->
  alert_for_exit_ s' = alert_for_exit_ s || is_cancel c.
Proof.
  destruct s as [q a]; intros E.
  destruct c; simpl in E; simpl; rewrite ?orb_false_r, ?orb_true_r.
  - inversion E; reflexivity.
  - inversion E; reflexivity.
  - rewrite emplace_wait_if_full_cases in E; simpl in E.
    destruct (is_full _ _); [destruct a|]; inversion E; reflexivity.
  - unfold emplace_overwrite_oldest in E; simpl in E.
    destruct (pop_while_full _ _); inversion E; reflexivity.
  - destruct q; [rewrite pop_if_not_empty_nil in E
                | rewrite pop_if_not_empty_cons in E];
      inversion E; reflexivity.
  - destruct q; [rewrite pop_wait_if_empty_nil in E; destruct a
                | rewrite pop_wait_if_empty_cons in E];
      inversion E; reflexivity.
  - inversion E; reflexivity.
  - inversion E; reflexivity.
Qed.

Lemma run_alert_flag calls : forall s s' log,
  run kMaxSize calls s = Some (s', log) ->
  alert_for_exit_ s' = alert_for_exit_ s || existsb is_cancel calls.
Proof.
  induction calls as [|c calls IH]; simpl; intros s s' log E.
  - inversion E; subst. rewrite orb_false_r. reflexivity.
  - destruct (exec kMaxSize c s) as [r s1 n| |] eqn:X; [| |discriminate].
    + destruct (run kMaxSize calls s1) as [[s2 l]|] eqn:R; inversion E; subst.
      rewrite (IH _ _ _ R), (exec_alert_flag _ _ X), orb_assoc. reflexivity.
    + destruct (run kMaxSize calls s) as [[s2 l]|] eqn:R; inversion E; subst.
      rewrite (IH _ _ _ R).
      destruct c; simpl in X; try discriminate X; reflexivity.
Qed.

(** X3: the flag is set by [alert_for_exit] and by nothing else, and is
    never cleared: after any calls on a new queue [is_alert] returns
    [true] exactly when one of the calls was [alert_for_exit]. *)
Theorem is_alert_history calls :
  exists s log,
    run kMaxSize calls init = Some (s, log) /\
    is_alert s = Return (existsb is_cancel calls) s [].
Proof.
  destruct (run_within_capacity kMaxSize_positive calls init) as (s & log & R & _);
    [simpl; lia|].
  exists s, log. split; [exact R|].
  unfold is_alert. rewrite (run_alert_flag _ _ R). reflexivity.
Qed.

(** ** Overwriting, in general *)

(** X4: any number of [emplace_overwrite_oldest] calls on a queue within
    its capacity leaves the last [kMaxSize] items of the old contents
    followed by the pushed items; the queue grows by one per push until
    it is full and stays full from then on. *)
Theorem emplace_overwrite_oldest_history q a xs :
  length q <= kMaxSize ->
  run kMaxSize (map EmplaceOverwriteOldest xs) (Build q a)
  = Some (Build (latest kMaxSize (q ++ xs)) a,
          map (fun _ => Some ret_void) xs) /\
  length (latest kMaxSize (q ++ xs)) = Nat.min kMaxSize (length q + length xs).
Proof.
  intros L. split; [apply (run_overwrite kMaxSize_positive), L|].
  unfold latest. rewrite length_drop, length_app. lia.
Qed.

(** X5: a producer pushes any items with [emplace_overwrite_oldest] into
    a new queue and then calls [alert_for_exit]; a consumer loops on
    [pop_wait_if_empty] until it returns [false].  Nothing is undefined
    and nobody is suspended; the consumer receives the last [kMaxSize]
    items pushed, in the order they were pushed, and then [false]. *)
Theorem produce_alert_consume d xs :
  let kept := latest kMaxSize xs in
  run kMaxSize
    (map EmplaceOverwriteOldest xs ++ [AlertForExit]
     ++ replicate (S (length kept)) (PopWaitIfEmpty (std.address_of d)))
    init
  = Some (Build [] true,
          map (fun _ => Some ret_void) xs ++ [Some ret_void]
          ++ map (fun x => Some (ret_pop true (std.address_of x))) kept
          ++ [Some (ret_pop false (std.address_of d))]).
Proof.
  intros kept. rewrite run_app. unfold init.
  rewrite (run_overwrite kMaxSize_positive) by (simpl; lia).
  rewrite app_nil_l. fold kept.
  change ([AlertForExit] ++ ?l) with (AlertForExit :: l).
  cbn [run exec alert_for_exit answer queue_].
  rewrite run_pop_wait_if_empty. reflexivity.
Qed.

(** ** Who is left waiting *)

(** A call that does not notify [not_empty_notifier_] leaves an empty,
    uncancelled queue empty and uncancelled. *)
Lemma exec_not_empty c s r s' notified :
  exec kMaxSize c s = Return r s' notified ->
  notified = [not_empty_notifier_] \/
  (notified = [] \/ notified = [not_full_notifier_]) /\
  (queue_ s = [] -> alert_for_exit_ s = false ->
   queue_ s' = [] /\ alert_for_exit_ s' = false).
Proof.
  destruct s as [q a]; intros E.
  destruct c; simpl in E.
  - inversion E; subst; auto.
  - inversion E; subst; auto.
  - rewrite emplace_wait_if_full_cases in E; simpl in E.
    destruct (is_full _ _); [destruct a|]; inversion E; subst; auto.
  - unfold emplace_overwrite_oldest in E; simpl in E.
    destruct (pop_while_full _ _); inversion E; subst; auto.
  - destruct q; [rewrite pop_if_not_empty_nil in E
                | rewrite pop_if_not_empty_cons in E];
      inversion E; subst; right; (split; [auto|]); simpl; auto; discriminate.
  - destruct q; [rewrite pop_wait_if_empty_nil in E; destruct a
                | rewrite pop_wait_if_empty_cons in E];
      inversion E; subst; right; (split; [auto|]); simpl; auto; discriminate.
  - inversion E; subst; auto.
  - inversion E; subst; auto.
Qed.

Lemma exec_suspend c s cv :
  exec kMaxSize c s = Suspend cv ->
  match cv with
  | not_empty_notifier_ => queue_ s = [] /\ alert_for_exit_ s = false
  | not_full_notifier_ =>
      is_full kMaxSize s = true /\ alert_for_exit_ s = false
  end.
Proof.
  destruct s as [q a]; intros E.
  destruct c; simpl in E; try discriminate E.
  - rewrite emplace_wait_if_full_cases in E; simpl in E.
    destruct (is_full _ _) eqn:F; [destruct a|]; inversion E; subst; auto.
  - unfold emplace_overwrite_oldest in E; simpl in E.
    destruct (pop_while_full _ _); discriminate E.
  - destruct q; [rewrite pop_if_not_empty_nil in E
                | rewrite pop_if_not_empty_cons in E]; discriminate E.
  - destruct q; [rewrite pop_wait_if_empty_nil in E; destruct a
                | rewrite pop_wait_if_empty_cons in E];
      inversion E; subst; auto.
Qed.

(** A call other than [alert_for_exit] that does not notify
    [not_full_notifier_] leaves a full queue full. *)
Lemma exec_not_full c s r s' notified :
  is_cancel c = false ->
  exec kMaxSize c s = Return r s' notified ->
  notified = [not_full_notifier_] \/
  (notified = [] \/ notified = [not_empty_notifier_]) /\
  (is_full kMaxSize s = true -> is_full kMaxSize s' = true).
Proof.
  destruct s as [q a]; intros P E.
  destruct c; simpl in E; try discriminate P.
  - inversion E; subst; auto.
  - inversion E; subst; auto.
  - rewrite emplace_wait_if_full_cases in E; simpl in E.
    destruct (is_full _ _) eqn:F; [destruct a|]; inversion E; subst; auto.
    right. split; [auto|]. congruence.
  - rewrite (emplace_overwrite_oldest_spec kMaxSize_positive) in E.
    inversion E; subst. right. split; [auto|].
    rewrite !is_full_true. simpl. unfold latest.
    rewrite length_drop, length_app. simpl. lia.
  - destruct q; [rewrite pop_if_not_empty_nil in E
                | rewrite pop_if_not_empty_cons in E];
      inversion E; subst; auto.
  - destruct q; [rewrite pop_wait_if_empty_nil in E; destruct a
                | rewrite pop_wait_if_empty_cons in E];
      inversion E; subst; auto.
  - inversion E; subst; auto.
Qed.

Lemma step_consumers thread c (m m' : monitor T) r :
  consumers_wait_rightly m ->
  step kMaxSize thread c m = Some (m', r) ->
  consumers_wait_rightly m'.
Proof.
  unfold step, consumers_wait_rightly. intros I E.
  destruct (suspended thread m); [discriminate|].
  destruct (exec kMaxSize c (object m)) as [r1 s1 n| |] eqn:X;
    [| |discriminate]; inversion E; subst; clear E.
  - destruct (exec_not_empty _ _ X) as [-> | [[-> | ->] K]]; simpl; auto;
      destruct I as [I | [I1 I2]]; auto.
  - pose proof (exec_suspend _ _ X) as K.
    destruct cv; simpl; auto.
Qed.

Lemma steps_consumers schedule : forall (m m' : monitor T),
  consumers_wait_rightly m ->
  steps kMaxSize schedule m = Some m' ->
  consumers_wait_rightly m'.
Proof.
  induction schedule as [|[thread c] schedule IH]; simpl; intros m m' I E.
  - inversion E; subst; exact I.
  - destruct (step kMaxSize thread c m) as [[m1 r]|] eqn:X; [|discriminate].
    eapply IH; [eapply step_consumers|]; eauto.
Qed.

(** X6: no consumer misses a wake-up.  In every state that threads
    calling a new queue can reach, a thread on the wait list of
    [not_empty_notifier_] finds the queue empty and not cancelled: its
    [pop_wait_if_empty] would be suspended again. *)
Theorem consumers_never_miss_a_wakeup schedule (m : monitor T) thread value :
  steps kMaxSize schedule (Monitor init [] []) = Some m ->
  In thread (waiting_not_empty m) ->
  queue_ (object m) = [] /\
  alert_for_exit_ (object m) = false /\
  pop_wait_if_empty value (object m) = Suspend not_empty_notifier_.
Proof.
  intros E H.
  assert (I : consumers_wait_rightly (Monitor (@init T) [] []))
    by (left; reflexivity).
  destruct (steps_consumers _ I E) as [N | [Q A]].
  - rewrite N in H. contradiction.
  - split; [exact Q|]. split; [exact A|].
    destruct (object m) as [q a]; simpl in Q, A; subst.
    reflexivity.
Qed.

Lemma step_producers thread c (m m' : monitor T) r :
  is_cancel c = false ->
  producers_wait_rightly kMaxSize m ->
  step kMaxSize thread c m = Some (m', r) ->
  producers_wait_rightly kMaxSize m'.
Proof.
  unfold step, producers_wait_rightly. intros P I E.
  destruct (suspended thread m); [discriminate|].
  destruct (exec kMaxSize c (object m)) as [r1 s1 n| |] eqn:X;
    [| |discriminate]; inversion E; subst; clear E.
  - pose proof (exec_alert_flag _ _ X) as A.
    rewrite P, orb_false_r in A.
    destruct (exec_not_full _ _ P X) as [-> | [[-> | ->] K]]; simpl; auto;
      destruct I as [I | [I1 I2]]; auto; right; split; auto; congruence.
  - pose proof (exec_suspend _ _ X) as K.
    destruct cv; simpl; auto.
Qed.

Lemma steps_producers schedule : forall (m m' : monitor T),
  forallb (fun tc => negb (is_cancel (snd tc))) schedule = true ->
  producers_wait_rightly kMaxSize m ->
  steps kMaxSize schedule m = Some m' ->
  producers_wait_rightly kMaxSize m'.
Proof.
  induction schedule as [|[thread c] schedule IH]; simpl; intros m m' P I E.
  - inversion E; subst; exact I.
  - apply andb_prop in P as [Pc P]. apply negb_true_iff in Pc.
    destruct (step kMaxSize thread c m) as [[m1 r]|] eqn:X; [|discriminate].
    eapply IH; [exact P | eapply step_producers | exact E]; eauto.
Qed.

(** X7: as long as nobody calls [alert_for_exit], no producer misses a
    wake-up either.  In every state reached without that call, a thread
    on the wait list of [not_full_notifier_] finds the queue full and not
    cancelled: its [emplace_wait_if_full] would be suspended again. *)
Theorem producers_never_miss_a_wakeup schedule (m : monitor T) thread x :
  forallb (fun tc => negb (is_cancel (snd tc))) schedule = true ->
  steps kMaxSize schedule (Monitor init [] []) = Some m ->
  In thread (waiting_not_full m) ->
  kMaxSize <= length (queue_ (object m)) /\
  alert_for_exit_ (object m) = false /\
  emplace_wait_if_full kMaxSize x (object m) = Suspend not_full_notifier_.
Proof.
  intros P E H.
  assert (I : producers_wait_rightly kMaxSize (Monitor (@init T) [] []))
    by (left; reflexivity).
  destruct (steps_producers _ P I E) as [N | [F A]].
  - rewrite N in H. contradiction.
  - split; [apply is_full_true, F|]. split; [exact A|].
    rewrite emplace_wait_if_full_cases, F, A. reflexivity.
Qed.

End MutexQueue_histories.

(** * The life of a ThreadPool *)

Section ThreadPool_lifecycle.
Import MutexQueue ThreadPool.

Variables val exn : Type.

Implicit Types (p : ThreadPool.t val exn) (fn : unit -> completion exn val).
Implicit Types (task : packaged_task_void val exn) (i j n future : nat).
Implicit Types (events : list (event val exn)) (r : completion exn val).


(** ** Results are stored once *)

Lemma ready_handle future r e p :
  wf p -> heap_ p !! future = Some (Some r) ->
  match handle e p with
  | Return _ p' _ => heap_ p' !! future = Some (Some r)
  | Suspend _ => True
  | Undefined => False
  end.
Proof.
  intros W Hf.
  assert (Lf : future < length (heap_ p)) by (eapply lookup_lt_Some; eauto).
  destruct e as [fn'|i|]; simpl.
  - rewrite enqueue_cases; simpl.
    destruct (is_full _ _); [destruct (alert_for_exit_ _); [|exact I]|];
      simpl.
    + rewrite abandon_lookup by exact Lf. exact Hf.
    + rewrite lookup_app_l by lia. exact Hf.
  - destruct (thread_pool_ p !! i) as [th|] eqn:Hi;
      [destruct th|];
      try (rewrite thread_task_idle by congruence; exact Hf).
    destruct (task_queue_ p) as [q a] eqn:TQ.
    destruct q as [|task0 q].
    + rewrite (@thread_task_nil _ _ i p a Hi TQ).
      destruct a; [exact Hf | exact I].
    + pose proof (wf_pending W) as Q. rewrite TQ in Q. simpl in Q.
      apply Forall_cons in Q as [P0 _].
      destruct task0 as [|tp0]; [contradiction|]. simpl in P0.
      rewrite (@thread_task_cons _ _ i p _ _ a Hi TQ P0). cbn [heap_].
      rewrite list_lookup_insert_ne; [exact Hf | congruence].
  - exact Hf.
Qed.

Lemma ready_history future r events : forall p,
  wf p -> heap_ p !! future = Some (Some r) ->
  exists p',
    history events p = Some p' /\ wf p' /\
    heap_ p' !! future = Some (Some r).
Proof.
  induction events as [|e events IH]; simpl; intros p W H.
  - eauto.
  - pose proof (wf_handle e W) as W'.
    pose proof (@ready_handle future r e p W H) as H'.
    destruct (handle e p) as [u p1 ns| |]; [| |contradiction]; auto.
Qed.


(** ** Values *)


(** ** Submitting to a pool that is being destroyed *)

(** X10: [enqueue] does not look at what [emplace_wait_if_full] returns.
    On a pool whose queue is cancelled and full it returns a future all
    the same, but the task is dropped: the queue is as before, and [get]
    on the future throws [broken_promise] in every later history. *)
Theorem enqueue_on_cancelled_full_queue n events0 p fn :
  history events0 (ThreadPool val exn n) = Some p ->
  alert_for_exit_ (task_queue_ p) = true ->
  length (queue_ (task_queue_ p)) = 128 ->
  exists future p',
    enqueue fn p = Return future p' [] /\
    task_queue_ p' = task_queue_ p /\
    forall events, exists p'',
      history events p' = Some p'' /\
      get future (heap_ p'')
      = Some (get_throws (future_error broken_promise)).
Proof.
  intros H0 A L.
  destruct (wf_history events0 (wf_ThreadPool val exn n)) as (p0 & H0' & W).
  rewrite H0 in H0'. inversion H0'; subst p0; clear H0'.
  pose proof (wf_enqueue fn W) as W'.
  rewrite enqueue_cases in *. cbn zeta in *.
  assert (F : is_full kMaxSize (task_queue_ p) = true)
    by (apply is_full_true; unfold kMaxSize; lia).
  rewrite F, A in *.
  eexists _, _. split; [reflexivity|]. split; [reflexivity|].
  intros events.
  assert (Hf : heap_ (ThreadPool.Build (thread_pool_ p) (task_queue_ p)
                        (max_thread_number_ p)
                        (abandon {| callable := fn;
                                    state := length (heap_ p) |}
                           (heap_ p ++ [None])))
               !! length (heap_ p)
               = Some (Some (raised (future_error broken_promise)))).
  { cbn [heap_]. unfold abandon; simpl.
    rewrite lookup_app_r, Nat.sub_diag by lia.
    apply list_lookup_insert_eq. rewrite length_app; simpl; lia. }
  destruct (@ready_history _ _ events _ W' Hf) as (p'' & H & _ & Hf').
  exists p''. split; [exact H|]. unfold get. rewrite Hf'. reflexivity.
Qed.

(** ** Pools without a thread in its loop *)

Lemma joined_lookup p i :
  joined p = true -> thread_pool_ p !! i <> Some looping.
Proof.
  unfold joined. intros J H.
  rewrite forallb_forall in J.
  apply list_elem_of_lookup_2, list_elem_of_In, J in H. discriminate.
Qed.

Lemma idle_handle task_ptr e p :
  joined p = true ->
  In (closure task_ptr) (queue_ (task_queue_ p)) ->
  heap_ p !! state task_ptr = Some None ->
  match handle e p with
  | Return _ p' _ =>
      joined p' = true /\
      In (closure task_ptr) (queue_ (task_queue_ p')) /\
      heap_ p' !! state task_ptr = Some None
  | Suspend _ => True
  | Undefined => False
  end.
Proof.
  intros J Hin Hf.
  assert (Lf : state task_ptr < length (heap_ p))
    by (eapply lookup_lt_Some; eauto).
  destruct e as [fn'|i|]; simpl.
  - rewrite enqueue_cases; simpl.
    destruct (is_full _ _); [destruct (alert_for_exit_ _); [|exact I]|];
      simpl; (split; [exact J|]); split.
    + exact Hin.
    + rewrite abandon_lookup by exact Lf. exact Hf.
    + apply in_or_app. left. exact Hin.
    + rewrite lookup_app_l by lia. exact Hf.
  - rewrite thread_task_idle by (apply joined_lookup, J). auto.
  - auto.
Qed.

(** Without a thread in its loop a queued task stays queued and its
    future stays without a result. *)
Lemma idle_history task_ptr events : forall p,
  joined p = true ->
  In (closure task_ptr) (queue_ (task_queue_ p)) ->
  heap_ p !! state task_ptr = Some None ->
  exists p',
    history events p = Some p' /\
    joined p' = true /\
    In (closure task_ptr) (queue_ (task_queue_ p')) /\
    heap_ p' !! state task_ptr = Some None.
Proof.
  induction events as [|e events IH]; simpl; intros p J Hin Hf.
  - exists p. auto.
  - pose proof (@idle_handle task_ptr e p J Hin Hf) as H.
    destruct (handle e p) as [u p1 ns| |]; [| |contradiction].
    + destruct H as (J1 & Hin1 & Hf1). apply IH; assumption.
    + apply IH; assumption.
Qed.

(** X11: tasks are run by the worker threads only.  In a pool none of
    whose threads is in its loop, as one constructed with
    [max_thread_number = 0], a queued task never runs.  [get] on its
    future waits through every history of the pool; and once the
    destructor has called [alert_for_exit] no join holds it up: it ends
    by destroying the task, and [get] throws [broken_promise]. *)
Theorem no_thread_no_result p task_ptr :
  joined p = true ->
  In (closure task_ptr) (queue_ (task_queue_ p)) ->
  get (state task_ptr) (heap_ p) = Some get_waits ->
  forall events, exists p',
    history events p = Some p' /\
    joined p' = true /\
    get (state task_ptr) (heap_ p') = Some get_waits /\
    (alert_for_exit_ (task_queue_ p') = true ->
     exists heap,
       finish p' = Some heap /\
       get (state task_ptr) heap
       = Some (get_throws (future_error broken_promise))).
Proof.
  intros J Hin G events.
  assert (Hf : heap_ p !! state task_ptr = Some None).
  { unfold get in G.
    destruct (heap_ p !! state task_ptr) as [[[v|e]|]|]; try discriminate.
    reflexivity. }
  destruct (@idle_history task_ptr events p J Hin Hf)
    as (p' & H & J' & Hin' & Hf').
  exists p'. split; [exact H|]. split; [exact J'|].
  split; [unfold get; rewrite Hf'; reflexivity|].
  intros A. unfold finish. rewrite A, J'. simpl.
  eexists. split; [reflexivity|].
  unfold get. rewrite (abandon_all_queued _ _ _ Hin' Hf'). reflexivity.
Qed.

(** ** The threads *)

(** X12: the constructor fixes the threads.  In every history of a pool
    made with [max_thread_number = n] there are [n] threads; none has
    been ended by an exception; and a thread has left its loop only if
    the destructor has called [alert_for_exit]. *)
Theorem threads_of_a_pool n events :
  exists p,
    history events (ThreadPool val exn n) = Some p /\
    length (thread_pool_ p) = n /\
    max_thread_number_ p = n /\
    forall i th,
      thread_pool_ p !! i = Some th ->
      th <> terminated /\
      (th = finished -> alert_for_exit_ (task_queue_ p) = true).
Proof.
  destruct (wf_history events (wf_ThreadPool val exn n)) as (p & H & W).
  exists p. split; [exact H|].
  assert (L : length (thread_pool_ p) = n).
  { rewrite (history_threads _ (wf_ThreadPool val exn n) H).
    apply length_replicate. }
  split; [exact L|]. split; [rewrite <- (wf_number W); exact L|].
  intros i th Hi. apply list_elem_of_lookup_2 in Hi.
  split.
  - pose proof (wf_threads W) as TH. rewrite Forall_forall in TH.
    apply TH, Hi.
  - intros ->. destruct (alert_for_exit_ (task_queue_ p)) eqn:A;
      [reflexivity|].
    pose proof (wf_looping W A) as LP. rewrite Forall_forall in LP.
    specialize (LP _ Hi). discriminate.
Qed.

(** ** The destructor *)





End ThreadPool_lifecycle.

(** ** Instances *)

Section Histories_instances.
Import MutexQueue.

Lemma is_alert_history_two :
  let calls := [EmplaceWaitIfFull 1; AlertForExit; IsAlert; PopIfNotEmpty std.nullptr] in
  0 < 2 /\
  exists s log,
    run 2 calls init = Some (s, log) /\
    is_alert s = Return (existsb is_cancel calls) s [].
Proof.
  intros calls. split; [lia|].
  apply (@is_alert_history nat 2 ltac:(lia) calls).
Defined.

Lemma emplace_overwrite_oldest_history_two :
  0 < 2 /\ length [1] <= 2 /\
  run 2 (map EmplaceOverwriteOldest [2; 3; 4]) (Build [1] false)
  = Some (Build (latest 2 ([1] ++ [2; 3; 4])) false,
          map (fun _ => Some ret_void) [2; 3; 4]) /\
  length (latest 2 ([1] ++ [2; 3; 4])) = Nat.min 2 (length [1] + length [2; 3; 4]).
Proof.
  split; [lia|]. split; [simpl; lia|].
  apply (@emplace_overwrite_oldest_history nat 2 ltac:(lia) [1] false
           [2; 3; 4] ltac:(simpl; lia)).
Defined.

Lemma produce_alert_consume_two :
  0 < 2 /\
  run 2
    (map EmplaceOverwriteOldest [1; 2; 3] ++ [AlertForExit]
     ++ replicate 3 (PopWaitIfEmpty (std.address_of 0)))
    init
  = Some (Build [] true,
          [Some ret_void; Some ret_void; Some ret_void; Some ret_void;
           Some (ret_pop true (std.address_of 2));
           Some (ret_pop true (std.address_of 3));
           Some (ret_pop false (std.address_of 0))]).
Proof.
  split; [lia|].
  exact (@produce_alert_consume nat 2 ltac:(lia) 0 [1; 2; 3]).
Defined.

Lemma consumers_never_miss_a_wakeup_one :
  let m := Monitor (@init nat) [1] [] in
  steps 2 [(1, PopWaitIfEmpty std.nullptr); (2, Size)] (Monitor init [] [])
  = Some m /\
  In 1 (waiting_not_empty m) /\
  queue_ (object m) = [] /\
  alert_for_exit_ (object m) = false /\
  pop_wait_if_empty std.nullptr (object m) = Suspend not_empty_notifier_.
Proof.
  intros m. split; [reflexivity|]. split; [left; reflexivity|].
  apply (@consumers_never_miss_a_wakeup nat 2
           [(1, PopWaitIfEmpty std.nullptr); (2, Size)] m 1 std.nullptr
           eq_refl (or_introl eq_refl)).
Defined.

Lemma producers_never_miss_a_wakeup_one :
  let schedule := [(1, EmplaceWaitIfFull 10); (2, EmplaceWaitIfFull 20)] in
  let m := Monitor (Build [10] false) [] [2] in
  0 < 1 /\
  forallb (fun tc => negb (is_cancel (snd tc))) schedule = true /\
  steps 1 schedule (Monitor init [] []) = Some m /\
  In 2 (waiting_not_full m) /\
  1 <= length (queue_ (object m)) /\
  alert_for_exit_ (object m) = false /\
  emplace_wait_if_full 1 20 (object m) = Suspend not_full_notifier_.
Proof.
  intros schedule m. split; [lia|]. split; [reflexivity|].
  split; [reflexivity|]. split; [left; reflexivity|].
  apply (@producers_never_miss_a_wakeup nat 1 ltac:(lia) schedule m 2 20
           eq_refl eq_refl (or_introl eq_refl)).
Defined.

End Histories_instances.

Section Lifecycle_instances.
Import MutexQueue ThreadPool.



Lemma enqueue_on_cancelled_full_queue_none :
  let fn := fun _ : unit => returned (exn := nat) 0 in
  let events0 := replicate 128 (Enqueue fn) ++ [Destroy] in
  let p :=
    ThreadPool.Build []
      (MutexQueue.Build
         (map (fun k => closure {| callable := fn; state := k |}) (seq 0 128))
         true)
      0 (replicate 128 None) in
  history events0 (ThreadPool nat nat 0) = Some p /\
  alert_for_exit_ (task_queue_ p) = true /\
  length (queue_ (task_queue_ p)) = 128 /\
  exists future p',
    enqueue fn p = Return future p' [] /\
    task_queue_ p' = task_queue_ p /\
    forall events, exists p'',
      history events p' = Some p'' /\
      get future (heap_ p'')
      = Some (get_throws (future_error broken_promise)).
Proof.
  intros fn events0 p.
  split; [reflexivity|]. split; [reflexivity|]. split; [reflexivity|].
  apply (@enqueue_on_cancelled_full_queue nat nat 0 events0 p fn
           eq_refl eq_refl eq_refl).
Defined.

Lemma no_thread_no_result_none :
  let fn := fun _ : unit => returned (exn := nat) 0 in
  let task_ptr := {| callable := fn; state := 0 |} in
  let p :=
    ThreadPool.Build [] (MutexQueue.Build [closure task_ptr] false) 0 [None] in
  enqueue fn (ThreadPool nat nat 0) = Return 0 p [not_empty_notifier_] /\
  joined p = true /\
  In (closure task_ptr) (queue_ (task_queue_ p)) /\
  get (state task_ptr) (heap_ p) = Some get_waits /\
  forall events, exists p',
    history events p = Some p' /\
    joined p' = true /\
    get (state task_ptr) (heap_ p') = Some get_waits /\
    (alert_for_exit_ (task_queue_ p') = true ->
     exists heap,
       finish p' = Some heap /\
       get (state task_ptr) heap
       = Some (get_throws (future_error broken_promise))).
Proof.
  intros fn task_ptr p. split; [reflexivity|]. split; [reflexivity|].
  split; [left; reflexivity|]. split; [reflexivity|].
  apply (@no_thread_no_result nat nat p task_ptr eq_refl
           (or_introl eq_refl) eq_refl).
Defined.

(** A task whose body throws 7, submitted to a pool without a worker
    thread, and submitted to a pool with one after the destructor has
    begun and the thread has returned: [get] waits through every
    history, and throws [broken_promise] when the destructor has ended;
    it never throws 7. *)
Lemma enqueue_error_is_abandoned :
  let fn := fun _ : unit => raised (A := nat) (thrown 7) in
  let task_ptr := {| callable := fn; state := 0 |} in
  let p0 :=
    ThreadPool.Build [] (MutexQueue.Build [closure task_ptr] false) 0 [None] in
  let p1 :=
    ThreadPool.Build [finished] (MutexQueue.Build [] true) 1 [] in
  let p1' :=
    ThreadPool.Build [finished] (MutexQueue.Build [closure task_ptr] true)
      1 [None] in
  (enqueue fn (ThreadPool nat nat 0) = Return 0 p0 [not_empty_notifier_] /\
   (forall events, exists p',
      history events p0 = Some p' /\ get 0 (heap_ p') = Some get_waits) /\
   exists p',
     history [Destroy] p0 = Some p' /\
     finish p'
     = Some [Some (raised (future_error broken_promise))]) /\
  (history [Destroy; Iterate 0] (ThreadPool nat nat 1) = Some p1 /\
   enqueue fn p1 = Return 0 p1' [not_empty_notifier_] /\
   (forall events, exists p',
      history events p1' = Some p' /\ get 0 (heap_ p') = Some get_waits) /\
   finish p1' = Some [Some (raised (future_error broken_promise))]) /\
  get 0 [Some (raised (future_error broken_promise))]
  = Some (get_throws (exn := nat) (val := nat) (future_error broken_promise)).
Proof.
  intros fn task_ptr p0 p1 p1'.
  split; [|split; [|reflexivity]].
  - split; [reflexivity|]. split; [|eexists; split; reflexivity].
    intros events.
    destruct (@idle_history nat nat task_ptr events p0 eq_refl
                (or_introl eq_refl) eq_refl) as (p' & H & _ & _ & Hf).
    exists p'. split; [exact H|]. unfold get.
    change (state task_ptr) with 0 in Hf. rewrite Hf. reflexivity.
  - split; [reflexivity|]. split; [reflexivity|]. split; [|reflexivity].
    intros events.
    destruct (@idle_history nat nat task_ptr events p1' eq_refl
                (or_introl eq_refl) eq_refl) as (p' & H & _ & _ & Hf).
    exists p'. split; [exact H|]. unfold get.
    change (state task_ptr) with 0 in Hf. rewrite Hf. reflexivity.
Qed.


End Lifecycle_instances.
